(** * serversets: namespace paths, hierarchy creation and the member record

    A shallow embedding of [pkg/serversets/serverset.go] together with the
    parts of the Go standard library it calls ([path.Clean], [path.Split],
    [strings.Contains]), and the properties of the package proved over it. *)

From Stdlib Require Import Ascii String List ZArith Bool Arith Lia.
From Stdlib Require Import DecimalString.
Import ListNotations.


(** ** Go strings

    A Go string is an immutable sequence of bytes; [+] is concatenation and
    [==] is bytewise equality. *)

Definition gostring := list ascii.

Definition str (s : string) : gostring := list_ascii_of_string s.

Definition slash : ascii := "/"%char.
Definition dot : ascii := "."%char.

Fixpoint streq (a b : gostring) : bool :=
  match a, b with
  | [], [] => true
  | x :: a', y :: b' => Ascii.eqb x y && streq a' b'
  | _, _ => false
  end.

(** [strings.HasPrefix] and [strings.Contains]. *)
Fixpoint HasPrefix (s prefix : gostring) {struct prefix} : bool :=
  match prefix, s with
  | [], _ => true
  | p :: prefix', c :: s' => Ascii.eqb c p && HasPrefix s' prefix'
  | _ :: _, [] => false
  end.

Fixpoint Contains (s substr : gostring) : bool :=
  HasPrefix s substr ||
  match s with
  | [] => false
  | _ :: s' => Contains s' substr
  end.

(** ** Package [path] *)

Module path.

(** [bytealg.LastIndexByteString]: index of the last occurrence of [c],
    or -1. *)
Fixpoint lastIndexFrom (c : ascii) (s : gostring) (i acc : Z) : Z :=
  match s with
  | [] => acc
  | x :: s' => lastIndexFrom c s' (i + 1) (if Ascii.eqb x c then i else acc)
  end.

Definition LastIndexByte (s : gostring) (c : ascii) : Z :=
  lastIndexFrom c s 0 (-1).

(** [func Split(path string) (dir, file string)]:
    [i := LastIndexByte(path, '/'); return path[:i+1], path[i+1:]]. *)
Definition Split (p : gostring) : gostring * gostring :=
  let i := LastIndexByte p slash in
  (firstn (Z.to_nat (i + 1)) p, skipn (Z.to_nat (i + 1)) p).

(** The output buffer of [Clean] ([lazybuf]) is modelled by the bytes
    written so far: [out.w] is the length of the list, [out.append(c)]
    adds a byte at the end, [out.index(i)] reads byte [i]. *)
Definition index (out : gostring) (i : nat) : ascii := nth i out zero.

(** The [..] case when [out.w > dotdot]:
    [out.w--; for out.w > dotdot && out.index(out.w) != '/' { out.w-- }].
    [backtrackTo] is the [for] loop on the write index. *)
Fixpoint backtrackTo (out : gostring) (dotdot w : nat) : nat :=
  match w with
  | 0 => 0
  | S w' =>
      if (dotdot <? w) && negb (Ascii.eqb (index out w) slash)
      then backtrackTo out dotdot w'
      else w
  end.

Definition backtrack (out : gostring) (dotdot : nat) : gostring :=
  firstn (backtrackTo out dotdot (length out - 1)) out.

(** [r+1 == n || path[r+1] == '/'] on the bytes that follow position [r]. *)
Definition endOrSlash (rest : gostring) : bool :=
  match rest with
  | [] => true
  | c :: _ => Ascii.eqb c slash
  end.

(** [if rooted && out.w != 1 || !rooted && out.w != 0 { out.append('/') }],
    the separator written before a path element. *)
Definition withSlash (rooted : bool) (out : gostring) : gostring :=
  if (rooted && negb (length out =? 1)) ||
     (negb rooted && negb (length out =? 0))
  then out ++ [slash] else out.

(** The main loop of [Clean], [for r < n { switch ... }], on
    [rest = path[r:]].  The last case copies a path element byte by byte
    (the inner [for ; r < n && path[r] != '/'; r++]) and then re-enters
    the loop. *)
Fixpoint cleanLoop (rooted : bool) (rest : gostring) (out : gostring)
         (dotdot : nat) {struct rest} : gostring :=
  match rest with
  | [] => out
  | c :: tl =>
      if Ascii.eqb c slash then
        (* empty path element *)
        cleanLoop rooted tl out dotdot
      else if Ascii.eqb c dot && endOrSlash tl then
        (* . element *)
        cleanLoop rooted tl out dotdot
      else
        match tl with
        | d :: tl2 =>
            if Ascii.eqb c dot && Ascii.eqb d dot && endOrSlash tl2 then
              (* .. element: remove to last / *)
              if dotdot <? length out then
                cleanLoop rooted tl2 (backtrack out dotdot) dotdot
              else if negb rooted then
                let out1 := if 0 <? length out then out ++ [slash] else out in
                let out2 := out1 ++ [dot; dot] in
                cleanLoop rooted tl2 out2 (length out2)
              else
                cleanLoop rooted tl2 out dotdot
            else
              (* real path element; add slash if needed, copy element *)
              let out1 := withSlash rooted out in
              (fix copy (l : gostring) (o : gostring) {struct l} : gostring :=
                 match l with
                 | [] => o
                 | x :: l' =>
                     if Ascii.eqb x slash then cleanLoop rooted l o dotdot
                     else copy l' (o ++ [x])
                 end) tl (out1 ++ [c])
        | [] =>
            let out1 := withSlash rooted out in
            out1 ++ [c]
        end
  end.

(** [func Clean(path string) string]. *)
Definition Clean (p : gostring) : gostring :=
  match p with
  | [] => str "."
  | c0 :: tl =>
      let rooted := Ascii.eqb c0 slash in
      let out :=
        if rooted then cleanLoop true tl [slash] 1
        else cleanLoop false p [] 0 in
      if length out =? 0 then str "." else out
  end.

End path.

(** ** Package [time] *)

Module time.
(** [time.Duration] is an [int64] count of nanoseconds. *)
Definition Duration := Z.
Definition Nanosecond : Duration := 1%Z.
Definition Microsecond : Duration := (1000 * Nanosecond)%Z.
Definition Millisecond : Duration := (1000 * Microsecond)%Z.
Definition Second : Duration := (1000 * Millisecond)%Z.
End time.

(** ** The ZooKeeper client ([github.com/go-zookeeper/zk])

    Only the interface the package calls.  A Go [error] is [option Error],
    [None] being [nil]. *)

Module zk.

Inductive Error : Type :=
| ErrNodeExists
| ErrNoNode
| ErrNoAuth
| ErrConnectionClosed
| ErrSessionExpired
| ErrOther (msg : gostring).

Definition Error_eq_dec (a b : Error) : {a = b} + {a <> b}.
Proof. decide equality. apply (list_eq_dec ascii_dec). Defined.

Record ACL : Type := mkACL { Perms : Z; Scheme : gostring; ID : gostring }.

Definition PermAll : Z := 31.

Definition WorldACL (perms : Z) : list ACL :=
  [ mkACL perms (str "world") (str "anyone") ].

(** [Connect(servers, timeout)] and the methods
    [Create(path, data, flags, acl)] and [Exists(path)] of a connection.  A call may change the state behind the
    connection, so each method returns the connection after the call.  The
    event channel of [Connect] and the [*Stat] of [Exists] are left out:
    the package ignores both. *)
Class Client (Conn : Type) : Type := {
  Connect : list gostring -> time.Duration -> option Conn * option Error;
  Create : gostring -> list ascii -> Z -> list ACL -> Conn ->
           (gostring * option Error) * Conn;
  Exists : gostring -> Conn -> (bool * option Error) * Conn
}.

End zk.

(** ** Package [serversets] *)

(** The package-level variables.  [BaseZnodePath] is a function variable:
    [None] stands for the closure it is initialised with, which reads
    [BaseDirectory] when it is called; [Some f] for a function the user
    stored in it. *)
Record Globals : Type := mkGlobals {
  BaseDirectory : gostring;
  MemberPrefix : gostring;
  BaseZnodePath : option (gostring -> gostring -> gostring -> gostring);
  DefaultZKTimeout : time.Duration
}.

Definition defaultBaseZnodePath (g : Globals)
           (role environment service : gostring) : gostring :=
  BaseDirectory g ++ str "/" ++ role ++ str "/" ++ environment
                ++ str "/" ++ service.

Definition defaultGlobals : Globals :=
  {| BaseDirectory := str "/aurora";
     MemberPrefix := str "member_";
     BaseZnodePath := None;
     DefaultZKTimeout := (5 * time.Second)%Z |}.

Record ServerSet : Type := mkServerSet {
  ZKTimeout : time.Duration;
  role : gostring;
  environment : gostring;
  service : gostring;
  zkServers : list gostring
}.

(** The assignment [ss.ZKTimeout = d] on the exported field. *)
Definition setZKTimeout (d : time.Duration) (ss : ServerSet) : ServerSet :=
  {| ZKTimeout := d;
     role := role ss;
     environment := environment ss;
     service := service ss;
     zkServers := zkServers ss |}.

(** A call either returns a value or panics with a value (here the message
    of the error built by [fmt.Errorf]). *)
Inductive Result (A : Type) : Type :=
| Returns (a : A)
| Panics (msg : gostring).
Arguments Returns {A} a.
Arguments Panics {A} msg.

Definition New (g : Globals) (role environment service : gostring)
           (zookeepers : list gostring) : Result ServerSet :=
  if Contains service (str "/") then
    Panics (str "service name (" ++ service
                ++ str ") must not contain slashes")
  else
    Returns {| ZKTimeout := DefaultZKTimeout g;
               role := role;
               environment := environment;
               service := service;
               zkServers := zookeepers |}.

Definition ZookeeperServers (ss : ServerSet) : list gostring := zkServers ss.

Definition directoryPath (g : Globals) (ss : ServerSet) : gostring :=
  match BaseZnodePath g with
  | None => defaultBaseZnodePath g (role ss) (environment ss) (service ss)
  | Some f => f (role ss) (environment ss) (service ss)
  end.

(** *** [splitPaths]

    The first loop, [for fullPath != "/" { ... }], need not end, so it
    takes fuel: [None] is a loop still running when the fuel is spent. *)
Fixpoint splitLoop (fuel : nat) (fullPath : gostring) (parts : list gostring)
  : option (list gostring) :=
  match fuel with
  | 0 => None
  | S fuel' =>
      if streq fullPath (str "/") then Some parts
      else
        let (dir, last) := path.Split (path.Clean fullPath) in
        splitLoop fuel' dir (parts ++ [last])
  end.

(** The second loop, [for i := len(parts) - 1; i >= 0; i--]; the argument
    [n] is [i + 1]. *)
Fixpoint joinLoop (n : nat) (parts : list gostring) (base : gostring)
         (result : list gostring) : list gostring :=
  match n with
  | 0 => result
  | S i =>
      let base' := base ++ str "/" ++ nth i parts [] in
      joinLoop i parts base' (result ++ [base'])
  end.

Definition splitPathsFuel (fuel : nat) (fullPath : gostring)
  : option (list gostring) :=
  match splitLoop fuel fullPath [] with
  | None => None
  | Some parts => Some (joinLoop (length parts) parts [] [])
  end.

(** Each turn of the first loop removes at least one byte of an absolute
    path, so [length fullPath + 1] turns are enough whenever the loop ends
    ([splitPaths_fuel_enough] below). *)
Definition splitPaths (fullPath : gostring) : option (list gostring) :=
  splitPathsFuel (S (length fullPath)) fullPath.

Section WithClient.

Context {Conn : Type} `{zk.Client Conn}.

Definition connectToZookeeper (ss : ServerSet)
  : option Conn * option zk.Error :=
  zk.Connect (zkServers ss) (ZKTimeout ss).

(** The body of [createFullPath]'s [for _, key := range paths]. *)
Fixpoint createLoop (paths : list gostring) (connection : Conn)
  : option zk.Error * Conn :=
  match paths with
  | [] => (None, connection)
  | key :: paths' =>
      let '(_, err, connection') :=
        zk.Create key [] 0%Z (zk.WorldACL zk.PermAll) connection in
      match err with
      | Some e =>
          if zk.Error_eq_dec e zk.ErrNodeExists
          then createLoop paths' connection'
          else (err, connection')
      | None => createLoop paths' connection'
      end
  end.

(** [None]: [splitPaths] does not return. *)
Definition createFullPath (g : Globals) (ss : ServerSet) (connection : Conn)
  : option (option zk.Error * Conn) :=
  match splitPaths (directoryPath g ss) with
  | None => None
  | Some paths => Some (createLoop paths connection)
  end.

Definition isErr (err : option zk.Error) : bool :=
  match err with
  | Some _ => true
  | None => false
  end.

Fixpoint checkLoop (paths : list gostring) (connection : Conn)
  : option zk.Error * Conn :=
  match paths with
  | [] => (None, connection)
  | key :: paths' =>
      let '(exists_, err, connection') := zk.Exists key connection in
      if negb exists_ || isErr err
      then (err, connection')
      else checkLoop paths' connection'
  end.

Definition checkExistsFullPath (g : Globals) (ss : ServerSet)
           (connection : Conn) : option (option zk.Error * Conn) :=
  match splitPaths (directoryPath g ss) with
  | None => None
  | Some paths => Some (checkLoop paths connection)
  end.

End WithClient.

(** *** The member record *)

Record endpoint : Type := mkEndpoint { Host : gostring; Port : Z }.

(** A Go map value is either [nil] ([None]) or a map, here the list of its
    entries.  The [int] and [int64] fields are taken in [Z]: the package
    does no arithmetic on them. *)
Record Entity : Type := mkEntity {
  ServiceEndpoint : endpoint;
  AdditionalEndpoints : option (list (gostring * endpoint));
  Shard : Z;
  Status : gostring
}.

Definition statusDead : gostring := str "DEAD".
Definition statusStarting : gostring := str "STARTING".
Definition statusAlive : gostring := str "ALIVE".
Definition statusStopping : gostring := str "STOPPING".
Definition statusStopped : gostring := str "STOPPED".
Definition statusWarning : gostring := str "WARNING".
Definition statusUnknown : gostring := str "UNKNOWN".

Definition newEntity (host : gostring) (port : Z) : Entity :=
  {| ServiceEndpoint := mkEndpoint host port;
     AdditionalEndpoints := Some [];
     Shard := 0%Z;
     Status := statusAlive |}.

(** *** [json.Marshal] of an [Entity]

    [encoding/json] writes a struct as an object with one member per
    field, in declaration order, named by the field's [json] tag; an [int]
    in decimal; a [nil] map as [null] and any other map as an object with
    its keys sorted; a string between double quotes.  The encoder below
    covers strings made of printable ASCII bytes that need no escape
    (so not the quote, the backslash, [<], [>], [&]); on any other string
    it gives [None]: the escape rules are not modelled. *)

Module json.

Definition dquote : ascii := ascii_of_nat 34.

Definition plainByte (c : ascii) : bool :=
  let n := nat_of_ascii c in
  (32 <=? n) && (n <? 127) &&
  negb (n =? 34) && negb (n =? 92) &&
  negb (n =? 60) && negb (n =? 62) && negb (n =? 38).

Definition encodeString (s : gostring) : option gostring :=
  if forallb plainByte s then Some (dquote :: s ++ [dquote]) else None.

Definition encodeInt (z : Z) : gostring :=
  str (NilZero.string_of_int (Z.to_int z)).

Definition member (name : string) (value : gostring) : gostring :=
  dquote :: str name ++ dquote :: str ":" ++ value.

Definition encodeEndpoint (e : endpoint) : option gostring :=
  match encodeString (Host e) with
  | None => None
  | Some host =>
      Some (str "{" ++ member "host" host ++ str ","
                ++ member "port" (encodeInt (Port e)) ++ str "}")
  end.

(** [strings.Compare(a, b) < 0 || a == b], the order of the sorted keys. *)
Fixpoint strle (a b : gostring) : bool :=
  match a, b with
  | [], _ => true
  | _ :: _, [] => false
  | x :: a', y :: b' =>
      let n := nat_of_ascii x in
      let m := nat_of_ascii y in
      (n <? m) || ((n =? m) && strle a' b')
  end.

Fixpoint insertEntry (kv : gostring * endpoint)
         (l : list (gostring * endpoint)) : list (gostring * endpoint) :=
  match l with
  | [] => [kv]
  | kv' :: l' =>
      if strle (fst kv) (fst kv') then kv :: l
      else kv' :: insertEntry kv l'
  end.

Definition sortEntries (l : list (gostring * endpoint))
  : list (gostring * endpoint) :=
  fold_right insertEntry [] l.

Fixpoint encodeEntries (first : bool) (l : list (gostring * endpoint))
  : option gostring :=
  match l with
  | [] => Some []
  | (k, e) :: l' =>
      match encodeString k, encodeEndpoint e, encodeEntries false l' with
      | Some k', Some e', Some rest =>
          Some ((if first then [] else str ",") ++ k' ++ str ":" ++ e' ++ rest)
      | _, _, _ => None
      end
  end.

Definition encodeMap (m : option (list (gostring * endpoint)))
  : option gostring :=
  match m with
  | None => Some (str "null")
  | Some l =>
      match encodeEntries true (sortEntries l) with
      | None => None
      | Some body => Some (str "{" ++ body ++ str "}")
      end
  end.

Definition Marshal (e : Entity) : option gostring :=
  match encodeEndpoint (ServiceEndpoint e),
        encodeMap (AdditionalEndpoints e),
        encodeString (Status e) with
  | Some se, Some ae, Some st =>
      Some (str "{" ++ member "serviceEndpoint" se ++ str ","
                ++ member "additionalEndpoints" ae ++ str ","
                ++ member "shard" (encodeInt (Shard e)) ++ str ","
                ++ member "status" st ++ str "}")
  | _, _, _ => None
  end.

(** A JSON text written with ['] in place of the double quote. *)
Definition text (s : string) : gostring :=
  map (fun c => if Ascii.eqb c "'"%char then dquote else c) (str s).

End json.

(** ** Reading a path as a list of segments

    The vocabulary of the statements below: the segments of a path, the
    path a list of segments spells, and what [.] and [..] segments do to
    the segments before them under a root. *)

(** [strings.Split(s, "/")]. *)
Fixpoint splitOn (s : gostring) : list gostring :=
  match s with
  | [] => [[]]
  | c :: s' =>
      if Ascii.eqb c slash then [] :: splitOn s'
      else
        match splitOn s' with
        | piece :: pieces => (c :: piece) :: pieces
        | [] => [[c]]
        end
  end.

Definition nonEmpty (s : gostring) : bool :=
  match s with
  | [] => false
  | _ :: _ => true
  end.

(** The segments of a path: the non-empty pieces between separators. *)
Definition segments (s : gostring) : list gostring :=
  filter nonEmpty (splitOn s).

(** [joinAbs [s1; ...; sn]] is ["/s1/.../sn"]. *)
Definition joinAbs (segs : list gostring) : gostring :=
  concat (map (cons slash) segs).

(** The absolute path with the given segments; the root when there are
    none. *)
Definition render (segs : list gostring) : gostring :=
  match segs with
  | [] => [slash]
  | _ :: _ => joinAbs segs
  end.

(** One segment read under a root: [.] stays, [..] goes up (and stays at
    the root), any other name goes down. *)
Definition resolveStep (stk : list gostring) (seg : gostring)
  : list gostring :=
  if streq seg (str ".") then stk
  else if streq seg (str "..") then removelast stk
  else stk ++ [seg].

Definition resolve (stk : list gostring) (segs : list gostring)
  : list gostring :=
  fold_left resolveStep segs stk.

(** The segments of the normal form of an absolute path, and their
    number. *)
Definition normalSegments (p : gostring) : list gostring :=
  resolve [] (segments p).

Definition depth (p : gostring) : nat := length (normalSegments p).

(** The ancestor chain below [base]: [base/s1], [base/s1/s2], ... *)
Fixpoint chainFrom (base : gostring) (segs : list gostring)
  : list gostring :=
  match segs with
  | [] => []
  | seg :: segs' =>
      let base' := base ++ slash :: seg in
      base' :: chainFrom base' segs'
  end.

Definition rooted (p : gostring) : bool :=
  match p with
  | c :: _ => Ascii.eqb c slash
  | [] => false
  end.

(** [a] is a strict prefix of [b]. *)
Definition strictPrefix (a b : gostring) : Prop :=
  exists c, c <> [] /\ b = a ++ c.

(** A segment that is an ordinary name. *)
Definition plainSegment (seg : gostring) : Prop :=
  seg <> [] /\ ~ In slash seg /\ seg <> str "." /\ seg <> str "..".

(** The path element at the head of [l] (up to the next separator or the
    end), and what follows it. *)
Fixpoint elemOf (l : gostring) : gostring :=
  match l with
  | [] => []
  | x :: l' => if Ascii.eqb x slash then [] else x :: elemOf l'
  end.

Fixpoint afterElem (l : gostring) : gostring :=
  match l with
  | [] => []
  | x :: l' => if Ascii.eqb x slash then l else afterElem l'
  end.

(** What makes a list of bytes one segment. *)
Definition goodSeg (s : gostring) : Prop := s <> [] /\ ~ In slash s.

(** ** Runs of the client over a list of paths

    [existAll paths c] is the connection after the existence checks of
    [paths], made in order from [c], when every one of them reports that
    the node exists, with no error.  [createAll paths c] is the connection
    after the creations of [paths], made in order from [c] with the
    arguments [createFullPath] passes, when every one of them returns no
    error or [ErrNodeExists]. *)

Section Runs.

Context {Conn : Type} `{zk.Client Conn}.

Fixpoint existAll (paths : list gostring) (c : Conn) : option Conn :=
  match paths with
  | [] => Some c
  | key :: paths' =>
      match zk.Exists key c with
      | ((true, None), c') => existAll paths' c'
      | _ => None
      end
  end.

Fixpoint createAll (paths : list gostring) (c : Conn) : option Conn :=
  match paths with
  | [] => Some c
  | key :: paths' =>
      match zk.Create key [] 0%Z (zk.WorldACL zk.PermAll) c with
      | ((_, None), c') => createAll paths' c'
      | ((_, Some zk.ErrNodeExists), c') => createAll paths' c'
      | _ => None
      end
  end.

End Runs.

(** The hierarchy for [(role, environment, service)] has more levels than
    the base directory's own plus one each for role, environment and
    service. *)
Definition extraLevels (g : Globals) (role environment service : gostring)
  : Prop :=
  exists ss chain,
    New g role environment service [] = Returns ss /\
    splitPaths (directoryPath g ss) = Some chain /\
    depth (BaseDirectory g) + 3 < length chain.

(** ** An in-memory stand-in for the ZooKeeper server

    The nodes that exist, and the paths the client may not create.  Used
    to run the package's functions on concrete connections. *)

Record FakeZk : Type := mkFakeZk {
  nodes : list gostring;
  denied : list gostring
}.

Definition hasPath (p : gostring) (l : list gostring) : bool :=
  existsb (streq p) l.

Definition fakeCreate (p : gostring) (data : list ascii) (flags : Z)
           (acl : list zk.ACL) (z : FakeZk)
  : (gostring * option zk.Error) * FakeZk :=
  if hasPath p (denied z) then (([], Some zk.ErrNoAuth), z)
  else if hasPath p (nodes z) then (([], Some zk.ErrNodeExists), z)
  else ((p, None), mkFakeZk (nodes z ++ [p]) (denied z)).

Definition fakeExists (p : gostring) (z : FakeZk)
  : (bool * option zk.Error) * FakeZk :=
  ((hasPath p (nodes z), None), z).

#[export] Instance fakeClient : zk.Client FakeZk := {
  zk.Connect := fun _ _ => (Some (mkFakeZk [] []), None);
  zk.Create := fakeCreate;
  zk.Exists := fakeExists
}.

(** ** Conditions on a tree store

    [present k c]: on connection [c] the node [k] is there.  Each
    condition below is one thing a store may guarantee about the calls
    the package makes: [Create] with the arguments [createFullPath]
    passes (no data, flags 0, the world ACL), and [Exists]. *)

Section StoreConditions.

Context {Conn : Type} `{zk.Client Conn}.
Variable present : gostring -> Conn -> Prop.

(** A node whose creation returned no error is there. *)
Definition createdIsPresent : Prop :=
  forall key c created c',
    zk.Create key [] 0%Z (zk.WorldACL zk.PermAll) c
    = ((created, None), c') ->
    present key c'.

(** A node whose creation returned [ErrNodeExists] is there. *)
Definition existingIsPresent : Prop :=
  forall key c created c',
    zk.Create key [] 0%Z (zk.WorldACL zk.PermAll) c
    = ((created, Some zk.ErrNodeExists), c') ->
    present key c'.

(** A node that is there is still there after a creation. *)
Definition createKeeps : Prop :=
  forall k key c r c',
    present k c ->
    zk.Create key [] 0%Z (zk.WorldACL zk.PermAll) c = (r, c') ->
    present k c'.

(** Creating a node that is there returns [ErrNodeExists]. *)
Definition createAgainExists : Prop :=
  forall key c,
    present key c ->
    exists created c',
      zk.Create key [] 0%Z (zk.WorldACL zk.PermAll) c
      = ((created, Some zk.ErrNodeExists), c').

(** A node that is there is reported by [Exists], with no error. *)
Definition presentIsReported : Prop :=
  forall k c, present k c ->
              exists c', zk.Exists k c = ((true, None), c').

(** A node that is there is still there after an existence check. *)
Definition existsKeeps : Prop :=
  forall k key c r c',
    present k c -> zk.Exists key c = (r, c') -> present k c'.

End StoreConditions.

(** In the stand-in, a node is there when it is among the nodes and its
    creation is not refused. *)
Definition fakePresent (k : gostring) (z : FakeZk) : Prop :=
  hasPath k (nodes z) = true /\ hasPath k (denied z) = false.

(** A connection that is closed: every call fails. *)
#[export] Instance closedClient : zk.Client unit := {
  zk.Connect := fun _ _ => (None, Some zk.ErrConnectionClosed);
  zk.Create := fun _ _ _ _ c => (([], Some zk.ErrConnectionClosed), c);
  zk.Exists := fun _ c => ((false, Some zk.ErrConnectionClosed), c)
}.

(** ** Sample values *)

Definition wwwProdFrontend : ServerSet :=
  mkServerSet (5 * time.Second)%Z (str "www") (str "prod") (str "frontend")
              [str "zk1:2181"].

(** Every ancestor of [/aurora/www/prod/frontend] exists, the node itself
    does not. *)
Definition zkMissingLeaf : FakeZk :=
  mkFakeZk [str "/aurora"; str "/aurora/www"; str "/aurora/www/prod"] [].

(** [/aurora] exists and [/aurora/www/prod] may not be created. *)
Definition zkDeniedProd : FakeZk :=
  mkFakeZk [str "/aurora"] [str "/aurora/www/prod"].

(** The package variables after [BaseDirectory = "/"]. *)
Definition rootBaseGlobals : Globals :=
  {| BaseDirectory := str "/";
     MemberPrefix := str "member_";
     BaseZnodePath := None;
     DefaultZKTimeout := (5 * time.Second)%Z |}.

(** The whole hierarchy of [/aurora/www/prod/frontend] exists. *)
Definition zkAllThere : FakeZk :=
  mkFakeZk [str "/aurora"; str "/aurora/www"; str "/aurora/www/prod";
            str "/aurora/www/prod/frontend"] [].

(** The package variables after [BaseDirectory = "aurora"]. *)
Definition relativeBaseGlobals : Globals :=
  {| BaseDirectory := str "aurora";
     MemberPrefix := str "member_";
     BaseZnodePath := None;
     DefaultZKTimeout := (5 * time.Second)%Z |}.

(** Closes a goal [~ In slash s] on a string literal [s]. *)
Ltac no_slash :=
  let F := fresh "F" in
  intros F; simpl in F;
  repeat (destruct F as [F|F]; [discriminate|]); exact F.

(** * Properties *)

(** ** Worked examples *)

Example Clean_ex1 : path.Clean (str "/a//b/./c/../d/") = str "/a/b/d".
Proof. reflexivity. Qed.

Example Clean_ex2 : path.Clean (str "../../a/b/../..") = str "../..".
Proof. reflexivity. Qed.

Example Clean_ex3 : path.Clean (str "/../a") = str "/a".
Proof. reflexivity. Qed.

(** The cases of the standard library's own table for [Clean]. *)
Example Clean_table :
  forallb (fun io => streq (path.Clean (str (fst io))) (str (snd io)))
    [ ("", "."); ("abc", "abc"); ("abc/def", "abc/def"); ("a/b/c", "a/b/c");
      (".", "."); ("..", ".."); ("../..", "../.."); ("../../abc", "../../abc");
      ("/abc", "/abc"); ("/", "/"); ("abc/", "abc"); ("abc/def/", "abc/def");
      ("a/b/c/", "a/b/c"); ("./", "."); ("../", ".."); ("../../", "../..");
      ("/abc/", "/abc"); ("abc//def//ghi", "abc/def/ghi"); ("//abc", "/abc");
      ("///abc", "/abc"); ("//abc//", "/abc"); ("abc//", "abc");
      ("abc/./def", "abc/def"); ("/./abc/def", "/abc/def"); ("abc/.", "abc");
      ("abc/def/ghi/../jkl", "abc/def/jkl");
      ("abc/def/../ghi/../jkl", "abc/jkl"); ("abc/def/..", "abc");
      ("abc/def/../..", "."); ("/abc/def/../..", "/");
      ("abc/def/../../..", ".."); ("/abc/def/../../..", "/");
      ("abc/def/../../../ghi/jkl/../../../mno", "../../mno");
      ("abc/./../def", "def"); ("abc//./../def", "def");
      ("abc/../../././../def", "../../def") ]%string
  = true.
Proof. reflexivity. Qed.
Example Split_table :
  forallb (fun io => let '(d, f) := path.Split (str (fst io)) in
                     streq d (str (fst (snd io))) &&
                     streq f (str (snd (snd io))))
    [ ("a/b", ("a/", "b")); ("a/b/", ("a/b/", "")); ("a/", ("a/", ""));
      ("a", ("", "a")); ("/", ("/", "")) ]%string
  = true.
Proof. reflexivity. Qed.
Example Split_ex1 : path.Split (str "/a/b/c") = (str "/a/b/", str "c").
Proof. reflexivity. Qed.

Example Split_ex2 : path.Split (str "abc") = (str "", str "abc").
Proof. reflexivity. Qed.

Example splitPaths_ex1 :
  splitPaths (str "/a/b/c") = Some [str "/a"; str "/a/b"; str "/a/b/c"].
Proof. reflexivity. Qed.

Example splitPaths_ex2 :
  splitPaths (str "/a//b/../c/") = Some [str "/a"; str "/a/c"].
Proof. reflexivity. Qed.

Example splitPaths_ex3 : splitPaths (str "a/b") = None.
Proof. reflexivity. Qed.

Example splitPaths_ex4 : splitPaths (str "//") = Some [str "/"].
Proof. reflexivity. Qed.

Example Marshal_ex1 :
  json.Marshal
    {| ServiceEndpoint := mkEndpoint (str "h") (-7);
       AdditionalEndpoints :=
         Some [(str "http", mkEndpoint (str "h") 80);
               (str "admin", mkEndpoint (str "h") 81)];
       Shard := 3;
       Status := statusDead |}
  = Some (json.text
      "{'serviceEndpoint':{'host':'h','port':-7},'additionalEndpoints':{'admin':{'host':'h','port':81},'http':{'host':'h','port':80}},'shard':3,'status':'DEAD'}").
Proof. reflexivity. Qed.

(** ** Strings *)

Lemma streq_iff (a b : gostring) : streq a b = true <-> a = b.
Proof.
  revert b; induction a as [|x a IH]; intros [|y b]; simpl;
    try (split; [discriminate | discriminate]); try tauto.
  rewrite andb_true_iff, Ascii.eqb_eq, IH.
  split; [intros [-> ->]; reflexivity | intros E; inversion E; auto].
Qed.

Lemma streq_refl (a : gostring) : streq a a = true.
Proof. apply streq_iff; reflexivity. Qed.

Lemma streq_neq (a b : gostring) : a <> b -> streq a b = false.
Proof.
  intros N; destruct (streq a b) eqn:E; [|reflexivity].
  apply streq_iff in E; contradiction.
Qed.

Lemma eqb_slash_false (c : ascii) : c <> slash -> Ascii.eqb c slash = false.
Proof. intros N; apply Ascii.eqb_neq; exact N. Qed.

Lemma Contains_slash_iff (s : gostring) :
  Contains s (str "/") = true <-> In slash s.
Proof.
  change (str "/") with [slash].
  induction s as [|c s IH]; simpl.
  - split; [discriminate | tauto].
  - rewrite orb_true_iff, IH, andb_true_r, Ascii.eqb_eq.
    split; intros [E|E]; auto.
Qed.

Lemma Contains_slash_false_iff (s : gostring) :
  Contains s (str "/") = false <-> ~ In slash s.
Proof.
  rewrite <- Contains_slash_iff.
  destruct (Contains s (str "/")); split; congruence.
Qed.

Lemma rooted_iff (p : gostring) :
  rooted p = true <-> exists p', p = slash :: p'.
Proof.
  destruct p as [|c p]; simpl.
  - split; [discriminate | intros [p' E]; discriminate].
  - rewrite Ascii.eqb_eq; split.
    + intros ->; eauto.
    + intros [p' E]; inversion E; reflexivity.
Qed.

(** ** Segments *)

Lemma splitOn_not_nil (s : gostring) : splitOn s <> [].
Proof.
  destruct s as [|c s]; simpl; [discriminate|].
  destruct (Ascii.eqb c slash); [discriminate|].
  destruct (splitOn s); discriminate.
Qed.

Lemma splitOn_app_slash (a b : gostring) :
  splitOn (a ++ slash :: b) = splitOn a ++ splitOn b.
Proof.
  induction a as [|c a IH]; simpl.
  - reflexivity.
  - destruct (Ascii.eqb c slash).
    + rewrite IH; reflexivity.
    + rewrite IH. destruct (splitOn a) eqn:E.
      * exfalso; apply (splitOn_not_nil a); exact E.
      * reflexivity.
Qed.

Lemma splitOn_no_slash (s : gostring) : ~ In slash s -> splitOn s = [s].
Proof.
  induction s as [|c s IH]; simpl; intros N; [reflexivity|].
  rewrite eqb_slash_false by (intros ->; apply N; auto).
  rewrite IH by tauto; reflexivity.
Qed.

Lemma segments_app_slash (a b : gostring) :
  segments (a ++ slash :: b) = segments a ++ segments b.
Proof. unfold segments; rewrite splitOn_app_slash; apply filter_app. Qed.

Lemma segments_slash (s : gostring) : segments (slash :: s) = segments s.
Proof. apply (segments_app_slash [] s). Qed.

Lemma segments_no_slash (s : gostring) :
  s <> [] -> ~ In slash s -> segments s = [s].
Proof.
  intros NE N; unfold segments; rewrite splitOn_no_slash by exact N.
  destruct s; [contradiction | reflexivity].
Qed.

Lemma segments_app_slash_r (a : gostring) :
  segments (a ++ [slash]) = segments a.
Proof. rewrite segments_app_slash; simpl; apply app_nil_r. Qed.

Lemma joinAbs_app (a b : list gostring) :
  joinAbs (a ++ b) = joinAbs a ++ joinAbs b.
Proof. unfold joinAbs; rewrite map_app, concat_app; reflexivity. Qed.

Lemma joinAbs_cons (s : gostring) (l : list gostring) :
  joinAbs (s :: l) = slash :: s ++ joinAbs l.
Proof. reflexivity. Qed.

Lemma joinAbs_snoc (l : list gostring) (s : gostring) :
  joinAbs (l ++ [s]) = joinAbs l ++ slash :: s.
Proof.
  rewrite joinAbs_app; f_equal.
  unfold joinAbs; simpl; rewrite app_nil_r; reflexivity.
Qed.


Lemma segments_joinAbs (l : list gostring) :
  Forall (fun s => s <> [] /\ ~ In slash s) l ->
  segments (joinAbs l) = l.
Proof.
  induction 1 as [|s l [NE N] _ IH]; [reflexivity|].
  rewrite joinAbs_cons, segments_slash.
  destruct l as [|s' l].
  - change (joinAbs []) with (@nil ascii).
    rewrite app_nil_r; apply segments_no_slash; assumption.
  - rewrite joinAbs_cons in *.
    rewrite segments_app_slash, segments_no_slash by assumption.
    rewrite segments_slash in IH. simpl. f_equal.
    exact IH.
Qed.

(** ** [path.Clean] on absolute paths *)

Lemma elem_split (l : gostring) : elemOf l ++ afterElem l = l.
Proof.
  induction l as [|x l IH]; simpl; [reflexivity|].
  destruct (Ascii.eqb x slash); simpl; [reflexivity | now rewrite IH].
Qed.

Lemma elemOf_no_slash (l : gostring) : ~ In slash (elemOf l).
Proof.
  induction l as [|x l IH]; simpl; [tauto|].
  destruct (Ascii.eqb x slash) eqn:E; simpl; [tauto|].
  apply Ascii.eqb_neq in E. intros [F|F]; [congruence | tauto].
Qed.

Lemma afterElem_length (l : gostring) : length (afterElem l) <= length l.
Proof.
  induction l as [|x l IH]; simpl; [lia|].
  destruct (Ascii.eqb x slash); simpl; lia.
Qed.

Lemma afterElem_cases (l : gostring) :
  afterElem l = [] \/ exists l', afterElem l = slash :: l'.
Proof.
  induction l as [|x l IH]; simpl; [auto|].
  destruct (Ascii.eqb x slash) eqn:E; [|exact IH].
  apply Ascii.eqb_eq in E; subst; eauto.
Qed.

Lemma elemOf_nil_iff (l : gostring) :
  elemOf l = [] <-> path.endOrSlash l = true.
Proof.
  destruct l as [|x l]; simpl; [tauto|].
  destruct (Ascii.eqb x slash); split; congruence.
Qed.

Lemma elemOf_nil_after (l : gostring) : elemOf l = [] -> afterElem l = l.
Proof. intros E; rewrite <- (elem_split l) at 2; rewrite E; reflexivity. Qed.

Lemma segments_elem (c : ascii) (tl : gostring) :
  c <> slash ->
  segments (c :: tl) = (c :: elemOf tl) :: segments (afterElem tl).
Proof.
  intros N.
  assert (G : ~ In slash (c :: elemOf tl)).
  { intros [F|F]; [congruence | exact (elemOf_no_slash tl F)]. }
  rewrite <- (elem_split tl) at 1.
  destruct (afterElem_cases tl) as [E | [l' E]]; rewrite E.
  - rewrite app_nil_r. rewrite segments_no_slash; [reflexivity | discriminate | exact G].
  - change (c :: elemOf tl ++ slash :: l') with ((c :: elemOf tl) ++ slash :: l').
    rewrite segments_app_slash, segments_slash.
    rewrite segments_no_slash; [reflexivity | discriminate | exact G].
Qed.

Lemma cleanLoop_slash rooted tl out dd :
  path.cleanLoop rooted (slash :: tl) out dd = path.cleanLoop rooted tl out dd.
Proof. reflexivity. Qed.

Lemma cleanLoop_dot rooted tl out dd :
  path.endOrSlash tl = true ->
  path.cleanLoop rooted (dot :: tl) out dd = path.cleanLoop rooted tl out dd.
Proof. intros E; simpl; rewrite E; reflexivity. Qed.

Lemma cleanLoop_dotdot rooted tl out dd :
  path.endOrSlash tl = true ->
  path.cleanLoop rooted (dot :: dot :: tl) out dd =
  if dd <? length out then
    path.cleanLoop rooted tl (path.backtrack out dd) dd
  else if negb rooted then
    let out1 := if 0 <? length out then out ++ [slash] else out in
    let out2 := out1 ++ [dot; dot] in
    path.cleanLoop rooted tl out2 (length out2)
  else path.cleanLoop rooted tl out dd.
Proof. intros E; simpl; rewrite E; reflexivity. Qed.

Lemma cleanLoop_copy rooted dd (l o : gostring) :
  (fix copy (l : gostring) (o : gostring) {struct l} : gostring :=
     match l with
     | [] => o
     | x :: l' =>
         if Ascii.eqb x slash then path.cleanLoop rooted l o dd
         else copy l' (o ++ [x])
     end) l o
  = path.cleanLoop rooted (afterElem l) (o ++ elemOf l) dd.
Proof.
  revert o; induction l as [|x l IH]; intros o.
  - simpl; rewrite app_nil_r; reflexivity.
  - cbn [afterElem elemOf]. destruct (Ascii.eqb x slash) eqn:E.
    + rewrite app_nil_r; reflexivity.
    + rewrite IH, <- app_assoc; reflexivity.
Qed.

Lemma cleanLoop_elem rooted c tl out dd :
  c <> slash ->
  c :: elemOf tl <> str "." ->
  c :: elemOf tl <> str ".." ->
  path.cleanLoop rooted (c :: tl) out dd =
  path.cleanLoop rooted (afterElem tl) (path.withSlash rooted out ++ c :: elemOf tl) dd.
Proof.
  intros N N1 N2. 
  cbn [path.cleanLoop]. rewrite (eqb_slash_false c N).
  destruct (Ascii.eqb c dot && path.endOrSlash tl) eqn:E1.
  { apply andb_true_iff in E1 as [Ec Et]. apply Ascii.eqb_eq in Ec.
    apply elemOf_nil_iff in Et. exfalso; apply N1; rewrite Et, Ec; reflexivity. }
  destruct tl as [|d tl2].
  - reflexivity.
  - destruct (Ascii.eqb c dot && Ascii.eqb d dot && path.endOrSlash tl2) eqn:E2.
    { apply andb_true_iff in E2 as [E2 Et]. apply andb_true_iff in E2 as [Ec Ed].
      apply Ascii.eqb_eq in Ec, Ed. apply elemOf_nil_iff in Et.
      exfalso; apply N2; subst c d; cbn [elemOf]; rewrite Et; reflexivity. }
    rewrite cleanLoop_copy. cbn [afterElem elemOf].
    destruct (Ascii.eqb d slash); [reflexivity|].
    repeat rewrite <- app_assoc. reflexivity.
Qed.
Lemma index_app_r (pre s : gostring) (k : nat) :
  path.index (pre ++ s) (length pre + k) = nth k s zero.
Proof.
  unfold path.index. rewrite app_nth2 by lia. f_equal; lia.
Qed.

Lemma backtrackTo_elem (pre s : gostring) (dd k : nat) :
  ~ In slash s -> k <= length s ->
  path.backtrackTo (pre ++ slash :: s) dd (length pre + k)
  = Nat.max (length pre) (Nat.min dd (length pre + k)).
Proof.
  intros N. induction k as [|k IH]; intros L.
  - rewrite Nat.add_0_r. destruct (length pre) as [|n] eqn:E.
    + simpl; lia.
    + cbn [path.backtrackTo]. rewrite <- E.
      replace (length pre) with (length pre + 0) at 2 by lia.
      rewrite index_app_r. cbn [nth].
      change (Ascii.eqb slash slash) with true. cbn [negb].
      rewrite andb_false_r. lia.
  - rewrite Nat.add_succ_r. cbn [path.backtrackTo].
    rewrite <- Nat.add_succ_r, index_app_r. cbn [nth].
    assert (Hk : nth k s zero <> slash).
    { intros F. apply N. rewrite <- F. apply nth_In. lia. }
    rewrite (eqb_slash_false _ Hk). cbn [negb]. rewrite andb_true_r.
    destruct (dd <? length pre + S k) eqn:E.
    + apply Nat.ltb_lt in E. rewrite IH by lia. lia.
    + apply Nat.ltb_ge in E. lia.
Qed.

Lemma backtrack_elem (pre s : gostring) (dd : nat) :
  ~ In slash s -> s <> [] ->
  path.backtrack (pre ++ slash :: s) dd
  = firstn (Nat.max (length pre) (Nat.min dd (length pre + length s)))
           (pre ++ slash :: s).
Proof.
  intros N NE. unfold path.backtrack.
  rewrite length_app. cbn [length].
  replace (length pre + S (length s) - 1) with (length pre + length s) by lia.
  rewrite backtrackTo_elem by (auto; lia). reflexivity.
Qed.

Lemma joinAbs_length_cons (s : gostring) (l : list gostring) :
  2 <= length (joinAbs (s :: l)) \/ s = [].
Proof.
  destruct s; [right; reflexivity | left].
  rewrite joinAbs_cons; simpl; lia.
Qed.

Lemma render_snoc_backtrack (stk : list gostring) (s : gostring) :
  Forall goodSeg stk -> goodSeg s ->
  path.backtrack (render (stk ++ [s])) 1 = render stk.
Proof.
  intros G [NE N].
  assert (R : render (stk ++ [s]) = joinAbs stk ++ slash :: s).
  { rewrite <- joinAbs_snoc. destruct stk; reflexivity. }
  rewrite R, backtrack_elem by assumption.
  destruct stk as [|s0 stk].
  - simpl. destruct s; [contradiction|]. reflexivity.
  - inversion G as [|? ? [NE0 N0] G']; subst.
    destruct (joinAbs_length_cons s0 stk) as [L|F]; [|contradiction].
    assert (Ls : 1 <= length s) by (destruct s; [contradiction | simpl; lia]).
    replace (Nat.max _ _) with (length (joinAbs (s0 :: stk)) + 0) by lia.
    rewrite firstn_app_2. cbn [firstn].
    rewrite app_nil_r. reflexivity.
Qed.


Lemma render_length (stk : list gostring) :
  Forall goodSeg stk -> stk <> [] -> 2 <= length (render stk).
Proof.
  intros G NE. destruct stk as [|s stk]; [contradiction|].
  inversion G as [|? ? [NE0 _] _]; subst.
  destruct (joinAbs_length_cons s stk) as [L|F]; [exact L | contradiction].
Qed.

Lemma render_push (stk : list gostring) (s : gostring) :
  Forall goodSeg stk ->
  path.withSlash true (render stk) ++ s = render (stk ++ [s]).
Proof.
  intros G. unfold path.withSlash. cbn [negb andb orb].
  rewrite orb_false_r.
  destruct stk as [|s0 stk].
  - cbn. rewrite app_nil_r. reflexivity.
  - pose proof (render_length _ G ltac:(discriminate)) as L.
    replace (length (render (s0 :: stk)) =? 1) with false
      by (symmetry; apply Nat.eqb_neq; lia).
    cbn [negb]. rewrite <- app_assoc.
    change (render (s0 :: stk)) with (joinAbs (s0 :: stk)).
    change (render ((s0 :: stk) ++ [s])) with (joinAbs ((s0 :: stk) ++ [s])).
    rewrite joinAbs_snoc. reflexivity.
Qed.

Lemma resolveStep_dot stk : resolveStep stk (str ".") = stk.
Proof. reflexivity. Qed.

Lemma resolveStep_dotdot stk : resolveStep stk (str "..") = removelast stk.
Proof. reflexivity. Qed.

Lemma resolveStep_plain stk seg :
  seg <> str "." -> seg <> str ".." -> resolveStep stk seg = stk ++ [seg].
Proof.
  intros N1 N2; unfold resolveStep.
  rewrite (streq_neq _ _ N1), (streq_neq _ _ N2); reflexivity.
Qed.

Lemma goodSeg_removelast stk : Forall goodSeg stk -> Forall goodSeg (removelast stk).
Proof.
  intros G. apply Forall_forall. intros x Hx.
  rewrite Forall_forall in G. apply G.
  destruct stk as [|s stk]; [contradiction|].
  destruct (exists_last (l:=s :: stk)) as [l' [a E]]; [discriminate|].
  rewrite E in *. rewrite removelast_last in Hx. apply in_or_app; auto.
Qed.

Lemma goodSeg_elem (c : ascii) (tl : gostring) :
  c <> slash -> goodSeg (c :: elemOf tl).
Proof.
  intros N; split; [discriminate|].
  intros [F|F]; [congruence | exact (elemOf_no_slash tl F)].
Qed.

Lemma cleanLoop_rooted (n : nat) :
  forall (rest : gostring) (stk : list gostring),
    length rest <= n ->
    Forall goodSeg stk ->
    path.cleanLoop true rest (render stk) 1
    = render (resolve stk (segments rest)).
Proof.
  induction n as [|n IH]; intros rest stk L G.
  - destruct rest; [reflexivity | simpl in L; lia].
  - destruct rest as [|c tl]; [reflexivity|]. simpl in L.
    destruct (ascii_dec c slash) as [->|N].
    { rewrite cleanLoop_slash, segments_slash. apply IH; [lia | exact G]. }
    rewrite (segments_elem c tl N). cbn [resolve fold_left].
    pose proof (afterElem_length tl) as LA.
    destruct (list_eq_dec ascii_dec (c :: elemOf tl) (str ".")) as [E1|N1].
    { rewrite E1, resolveStep_dot.
      change (str ".") with [dot] in E1. inversion E1 as [[Ec Et]].
      rewrite (elemOf_nil_after _ Et).
      rewrite cleanLoop_dot by (apply elemOf_nil_iff; exact Et).
      apply IH; [lia | exact G]. }
    destruct (list_eq_dec ascii_dec (c :: elemOf tl) (str "..")) as [E2|N2].
    { rewrite E2, resolveStep_dotdot.
      change (str "..") with [dot; dot] in E2. inversion E2 as [[Ec Et]].
      destruct tl as [|d tl2]; [discriminate|].
      cbn [elemOf] in Et. destruct (Ascii.eqb d slash) eqn:Ed; [discriminate|].
      inversion Et as [[Ed' Et2]].
      cbn [afterElem]. change (Ascii.eqb dot slash) with false. cbv iota.
      rewrite (elemOf_nil_after _ Et2). fold (resolve (removelast stk) (segments tl2)).
      rewrite cleanLoop_dotdot by (apply elemOf_nil_iff; exact Et2).
      cbn [negb]. simpl in L.
      destruct stk as [|s0 stk0].
      - cbn. apply (IH tl2 []); [lia | constructor].
      - destruct (exists_last (l:=s0 :: stk0)) as [l' [a E]]; [discriminate|].
        rewrite E in *. rewrite removelast_last.
        apply Forall_app in G as [G1 G2]. inversion G2 as [|? ? Ga _]; subst.
        assert (Lr : (1 <? length (render (l' ++ [a]))) = true).
        { apply Nat.ltb_lt.
          assert (2 <= length (render (l' ++ [a]))); [|lia].
          apply render_length; [|destruct l'; discriminate].
          apply Forall_app; split; [exact G1 | constructor; [exact Ga | constructor]]. }
        rewrite Lr, render_snoc_backtrack by assumption.
        apply IH; [lia | exact G1]. }
    rewrite (resolveStep_plain stk _ N1 N2).
    rewrite (cleanLoop_elem true c tl (render stk) 1 N N1 N2).
    rewrite render_push by exact G.
    apply IH; [lia|].
    apply Forall_app; split; [exact G|].
    constructor; [apply goodSeg_elem; exact N | constructor].
Qed.
Lemma render_rooted (stk : list gostring) :
  exists r, render stk = slash :: r.
Proof. destruct stk as [|s stk]; [exists [] | exists (s ++ joinAbs stk)]; reflexivity. Qed.

Lemma Clean_rooted (p : gostring) :
  path.Clean (slash :: p) = render (normalSegments (slash :: p)).
Proof.
  unfold path.Clean, normalSegments.
  change (Ascii.eqb slash slash) with true. cbv iota.
  rewrite segments_slash.
  change [slash] with (render []).
  rewrite (@cleanLoop_rooted (length p) p []) by (auto; constructor).
  destruct (render_rooted (resolve [] (segments p))) as [r ->].
  reflexivity.
Qed.

Lemma splitOn_no_slash_pieces (s : gostring) :
  Forall (fun piece => ~ In slash piece) (splitOn s).
Proof.
  induction s as [|c s IH]; simpl.
  - constructor; [tauto | constructor].
  - destruct (Ascii.eqb c slash) eqn:E.
    + constructor; [tauto | exact IH].
    + apply Ascii.eqb_neq in E.
      destruct (splitOn s) as [|piece pieces].
      * constructor; [|constructor]. intros [F|[]]; congruence.
      * inversion IH; subst. constructor; [|assumption].
        intros [F|F]; [congruence | contradiction].
Qed.

Lemma segments_good (s : gostring) : Forall goodSeg (segments s).
Proof.
  unfold segments. apply Forall_forall. intros x Hx.
  apply filter_In in Hx as [Hin Hne].
  pose proof (splitOn_no_slash_pieces s) as F.
  rewrite Forall_forall in F. split; [|apply F; exact Hin].
  destruct x; [discriminate | discriminate].
Qed.

Lemma plainSegment_good (s : gostring) : plainSegment s -> goodSeg s.
Proof. intros (NE & N & _); split; assumption. Qed.

Lemma resolveStep_plainStack (stk : list gostring) (seg : gostring) :
  Forall plainSegment stk -> goodSeg seg ->
  Forall plainSegment (resolveStep stk seg).
Proof.
  intros P [NE N]. unfold resolveStep.
  destruct (streq seg (str ".")) eqn:E1; [exact P|].
  destruct (streq seg (str "..")) eqn:E2.
  - apply Forall_forall. intros x Hx. rewrite Forall_forall in P. apply P.
    destruct stk as [|s stk]; [contradiction|].
    destruct (exists_last (l:=s :: stk)) as [l' [a E]]; [discriminate|].
    rewrite E in *. rewrite removelast_last in Hx. apply in_or_app; auto.
  - apply Forall_app; split; [exact P|]. constructor; [|constructor].
    repeat split; try assumption.
    + intros F; rewrite F, streq_refl in E1; discriminate.
    + intros F; rewrite F, streq_refl in E2; discriminate.
Qed.

Lemma resolve_plainStack (segs stk : list gostring) :
  Forall plainSegment stk -> Forall goodSeg segs ->
  Forall plainSegment (resolve stk segs).
Proof.
  revert stk; induction segs as [|seg segs IH]; intros stk P G; [exact P|].
  inversion G; subst. cbn [resolve fold_left].
  apply IH; [apply resolveStep_plainStack|]; assumption.
Qed.

Lemma normalSegments_plain (p : gostring) :
  Forall plainSegment (normalSegments p).
Proof. apply resolve_plainStack; [constructor | apply segments_good]. Qed.

Lemma resolve_plain_id (segs stk : list gostring) :
  Forall plainSegment segs -> resolve stk segs = stk ++ segs.
Proof.
  revert stk; induction segs as [|seg segs IH]; intros stk P.
  - rewrite app_nil_r; reflexivity.
  - inversion P as [|? ? (NE & N & N1 & N2) P']; subst.
    cbn [resolve fold_left]. rewrite (resolveStep_plain stk _ N1 N2).
    change (fold_left resolveStep segs (stk ++ [seg]))
      with (resolve (stk ++ [seg]) segs).
    rewrite IH by exact P'. rewrite <- app_assoc. reflexivity.
Qed.

Lemma Forall_plain_good (l : list gostring) :
  Forall plainSegment l -> Forall goodSeg l.
Proof. apply Forall_impl. exact plainSegment_good. Qed.

(** The path left in [fullPath] after a turn of the loop, on the segments
    that remain: they are read back unchanged. *)
Lemma normalSegments_joinAbs_slash (stk : list gostring) :
  Forall plainSegment stk ->
  normalSegments (joinAbs stk ++ [slash]) = stk.
Proof.
  intros P. unfold normalSegments.
  rewrite segments_app_slash_r.
  rewrite segments_joinAbs by (apply Forall_plain_good; exact P).
  rewrite resolve_plain_id by exact P. reflexivity.
Qed.
(** ** [path.Split] *)

Lemma lastIndexFrom_absent (c : ascii) (s : gostring) (i acc : Z) :
  ~ In c s -> path.lastIndexFrom c s i acc = acc.
Proof.
  revert i acc; induction s as [|x s IH]; intros i acc N; [reflexivity|].
  cbn [path.lastIndexFrom].
  replace (Ascii.eqb x c) with false
    by (symmetry; apply Ascii.eqb_neq; intros ->; apply N; left; reflexivity).
  apply IH. intros F; apply N; right; exact F.
Qed.

Lemma lastIndexFrom_app (c : ascii) (a b : gostring) (i acc : Z) :
  path.lastIndexFrom c (a ++ b) i acc
  = path.lastIndexFrom c b (i + Z.of_nat (length a))
                       (path.lastIndexFrom c a i acc).
Proof.
  revert i acc; induction a as [|x a IH]; intros i acc.
  - cbn. f_equal. lia.
  - cbn [app path.lastIndexFrom length]. rewrite IH. f_equal. lia.
Qed.

Lemma Split_last (pre s : gostring) :
  ~ In slash s -> path.Split (pre ++ slash :: s) = (pre ++ [slash], s).
Proof.
  intros N. unfold path.Split, path.LastIndexByte.
  rewrite lastIndexFrom_app. cbn [path.lastIndexFrom].
  change (Ascii.eqb slash slash) with true. cbv iota.
  rewrite lastIndexFrom_absent by exact N.
  replace (Z.to_nat (0 + Z.of_nat (length pre) + 1)) with (length pre + 1) by lia.
  f_equal.
  - rewrite firstn_app_2. reflexivity.
  - rewrite skipn_app.
    rewrite skipn_all2 by lia.
    replace (length pre + 1 - length pre) with 1 by lia. reflexivity.
Qed.

Lemma Split_fst_firstn (p : gostring) :
  exists k, fst (path.Split p) = firstn k p.
Proof. unfold path.Split; cbn [fst]; eauto. Qed.

Lemma Split_render_snoc (stk : list gostring) (s : gostring) :
  goodSeg s ->
  path.Split (render (stk ++ [s])) = (joinAbs stk ++ [slash], s).
Proof.
  intros [NE N].
  replace (render (stk ++ [s])) with (joinAbs stk ++ slash :: s).
  - apply Split_last; exact N.
  - rewrite <- joinAbs_snoc. destruct stk; reflexivity.
Qed.

(** ** The two loops of [splitPaths] *)

Lemma Clean_absolute (p : gostring) :
  rooted p = true -> path.Clean p = render (normalSegments p).
Proof. intros R; apply rooted_iff in R as [p' ->]; apply Clean_rooted. Qed.

Lemma rooted_joinAbs_slash (stk : list gostring) :
  rooted (joinAbs stk ++ [slash]) = true.
Proof. destruct stk; reflexivity. Qed.

Lemma splitLoop_chain (stk : list gostring) :
  forall (parts : list gostring) (fuel : nat),
    Forall plainSegment stk ->
    length stk < fuel ->
    splitLoop fuel (joinAbs stk ++ [slash]) parts = Some (parts ++ rev stk).
Proof.
  induction stk as [|l init IH] using rev_ind; intros parts fuel P L.
  - destruct fuel; [lia|]. cbn. rewrite app_nil_r. reflexivity.
  - destruct fuel as [|fuel]; [lia|]. rewrite length_app in L. simpl in L.
    apply Forall_app in P as [Pi Pl]. inversion Pl as [|? ? Pl0 _]; subst.
    cbn [splitLoop].
    rewrite streq_neq.
    2:{ rewrite joinAbs_snoc. intros F. apply (f_equal (@length ascii)) in F.
        destruct Pl0 as (NE & _). destruct l; [contradiction|].
        repeat (rewrite length_app in F; simpl in F). lia. }
    rewrite Clean_absolute by apply rooted_joinAbs_slash.
    rewrite normalSegments_joinAbs_slash
      by (apply Forall_app; split; [exact Pi | constructor; [exact Pl0 | constructor]]).
    rewrite Split_render_snoc by (apply plainSegment_good; exact Pl0).
    rewrite IH by (auto; lia).
    rewrite rev_app_distr, <- app_assoc. reflexivity.
Qed.

Lemma splitLoop_absolute (p : gostring) (parts : list gostring) (fuel : nat) :
  rooted p = true ->
  p <> [slash] ->
  depth p < fuel ->
  splitLoop (S fuel) p parts
  = Some (parts ++ match normalSegments p with
                   | [] => [[]]
                   | _ :: _ => rev (normalSegments p)
                   end).
Proof.
  intros R NE L. unfold depth in L. cbn [splitLoop].
  change (str "/") with [slash]. rewrite (streq_neq _ _ NE).
  rewrite Clean_absolute by exact R.
  pose proof (normalSegments_plain p) as P.
  destruct (normalSegments p) as [|s0 stk0] eqn:E.
  - cbn [render]. change (path.Split [slash]) with ([slash], @nil ascii).
    destruct fuel; [simpl in L; lia|]. reflexivity.
  - destruct (exists_last (l:=s0 :: stk0)) as [init [l El]]; [discriminate|].
    rewrite El in *. apply Forall_app in P as [Pi Pl].
    inversion Pl as [|? ? Pl0 _]; subst.
    rewrite Split_render_snoc by (apply plainSegment_good; exact Pl0).
    rewrite length_app in L. simpl in L.
    rewrite splitLoop_chain by (auto; lia).
    rewrite rev_app_distr, <- app_assoc. reflexivity.
Qed.

Lemma firstn_S_nth (A : Type) (d : A) (l : list A) (i : nat) :
  S i <= length l -> firstn (S i) l = firstn i l ++ [nth i l d].
Proof.
  revert i; induction l as [|x l IH]; intros i L; simpl in L; [lia|].
  destruct i as [|i]; [reflexivity|].
  cbn [firstn nth app] in *. f_equal. apply IH. lia.
Qed.

Lemma joinLoop_chain (n : nat) :
  forall (parts : list gostring) (base : gostring) (result : list gostring),
    n <= length parts ->
    joinLoop n parts base result
    = result ++ chainFrom base (rev (firstn n parts)).
Proof.
  induction n as [|i IH]; intros parts base result L.
  - cbn. rewrite app_nil_r. reflexivity.
  - cbn [joinLoop]. rewrite IH by lia.
    change (str "/") with [slash].
    assert (E := firstn_S_nth _ [] parts i L). unfold gostring in *.
    rewrite E, rev_app_distr. cbn [rev app chainFrom].
    rewrite <- app_assoc. reflexivity.
Qed.
(** ** Sizes: the bound on the number of turns *)

Lemma joinAbs_splitOn_length (s : gostring) :
  length (joinAbs (splitOn s)) = S (length s).
Proof.
  induction s as [|c s IH]; [reflexivity|].
  cbn [splitOn]. destruct (Ascii.eqb c slash).
  - rewrite joinAbs_cons. cbn [app length]. rewrite IH. reflexivity.
  - destruct (splitOn s) as [|piece pieces] eqn:E.
    + exfalso; exact (splitOn_not_nil s E).
    + rewrite joinAbs_cons in *. cbn [app length] in *. rewrite <- IH. reflexivity.
Qed.

Lemma joinAbs_filter_length (f : gostring -> bool) (l : list gostring) :
  length (joinAbs (filter f l)) <= length (joinAbs l).
Proof.
  induction l as [|s l IH]; [reflexivity|].
  cbn [filter]. destruct (f s); rewrite ?joinAbs_cons; cbn [length];
    rewrite ?length_app; rewrite ?length_app; lia.
Qed.

Lemma joinAbs_segments_length (s : gostring) :
  length (joinAbs (segments s)) <= S (length s).
Proof.
  unfold segments. rewrite <- joinAbs_splitOn_length.
  apply joinAbs_filter_length.
Qed.

Lemma joinAbs_removelast_length (l : list gostring) :
  length (joinAbs (removelast l)) <= length (joinAbs l).
Proof.
  destruct l as [|s l]; [reflexivity|].
  destruct (exists_last (l:=s :: l)) as [l' [a E]]; [discriminate|].
  rewrite E, removelast_last, joinAbs_app, length_app. lia.
Qed.

Lemma joinAbs_resolve_length (segs stk : list gostring) :
  length (joinAbs (resolve stk segs))
  <= length (joinAbs stk) + length (joinAbs segs).
Proof.
  revert stk; induction segs as [|seg segs IH]; intros stk.
  - cbn [resolve fold_left]. lia.
  - cbn [resolve fold_left].
    change (fold_left resolveStep segs (resolveStep stk seg))
      with (resolve (resolveStep stk seg) segs).
    specialize (IH (resolveStep stk seg)).
    rewrite joinAbs_cons. cbn [length]. rewrite length_app.
    assert (length (joinAbs (resolveStep stk seg))
            <= length (joinAbs stk) + S (length seg)); [|lia].
    unfold resolveStep.
    destruct (streq seg (str ".")); [lia|].
    destruct (streq seg (str "..")).
    + pose proof (joinAbs_removelast_length stk). lia.
    + rewrite joinAbs_snoc, length_app. cbn [length]. lia.
Qed.

Lemma joinAbs_good_length (l : list gostring) :
  Forall goodSeg l -> 2 * length l <= length (joinAbs l).
Proof.
  induction 1 as [|s l [NE _] _ IH]; [reflexivity|].
  rewrite joinAbs_cons. cbn [length]. rewrite length_app.
  destruct s; [contradiction|]. cbn [length]. lia.
Qed.

Lemma joinAbs_normalSegments_length (p : gostring) :
  rooted p = true -> length (joinAbs (normalSegments p)) <= length p.
Proof.
  intros R. apply rooted_iff in R as [p' ->].
  unfold normalSegments. rewrite segments_slash.
  pose proof (joinAbs_resolve_length (segments p') []) as H1.
  pose proof (joinAbs_segments_length p') as H2.
  cbn [joinAbs map concat length] in *. lia.
Qed.

Lemma depth_bound (p : gostring) :
  rooted p = true -> 2 * depth p <= length p.
Proof.
  intros R. unfold depth.
  pose proof (joinAbs_normalSegments_length p R).
  pose proof (joinAbs_good_length _
                (Forall_plain_good _ (normalSegments_plain p))). lia.
Qed.

Lemma rooted_length (p : gostring) :
  rooted p = true -> p <> [slash] -> 2 <= length p.
Proof.
  intros R NE. apply rooted_iff in R as [p' ->].
  destruct p'; [contradiction | simpl; lia].
Qed.

Lemma Clean_length (p : gostring) :
  rooted p = true -> length (path.Clean p) <= length p.
Proof.
  intros R. rewrite Clean_absolute by exact R.
  pose proof (joinAbs_normalSegments_length p R) as H.
  destruct (normalSegments p) as [|s l]; [|exact H].
  apply rooted_iff in R as [p' ->]. simpl; lia.
Qed.

(** ** [splitPaths] on absolute paths *)

Lemma splitPathsFuel_absolute (p : gostring) (fuel : nat) :
  rooted p = true ->
  depth p < fuel ->
  splitPathsFuel (S fuel) p
  = Some match normalSegments p with
         | [] => if streq p (str "/") then [] else [[slash]]
         | _ :: _ => chainFrom [] (normalSegments p)
         end.
Proof.
  intros R L. unfold splitPathsFuel.
  destruct (list_eq_dec ascii_dec p [slash]) as [->|NE].
  - reflexivity.
  - rewrite (@splitLoop_absolute p [] fuel R NE L). cbn [app].
    change (str "/") with [slash]. rewrite (streq_neq _ _ NE).
    destruct (normalSegments p) as [|s l] eqn:E; [reflexivity|].
    rewrite joinLoop_chain by lia.
    rewrite firstn_all, rev_involutive. reflexivity.
Qed.

Lemma splitPaths_absolute (p : gostring) :
  rooted p = true ->
  splitPaths p
  = Some match normalSegments p with
         | [] => if streq p (str "/") then [] else [[slash]]
         | _ :: _ => chainFrom [] (normalSegments p)
         end.
Proof.
  intros R. unfold splitPaths. apply splitPathsFuel_absolute; [exact R|].
  pose proof (depth_bound p R).
  apply rooted_iff in R as [p' ->]. simpl in *. lia.
Qed.

(** ** Relative paths: the first loop never reaches the root *)

Lemma rooted_firstn (k : nat) (p : gostring) :
  rooted p = false -> rooted (firstn k p) = false.
Proof. destruct p, k; simpl; auto. Qed.

Lemma rooted_withSlash_elem (out : gostring) (c : ascii) (e : gostring) :
  rooted out = false -> c <> slash ->
  rooted (path.withSlash false out ++ c :: e) = false.
Proof.
  intros R N. destruct out as [|x out].
  - cbn. apply eqb_slash_false; exact N.
  - unfold path.withSlash. cbn [negb andb orb length Nat.eqb].
    cbn [app rooted]. exact R.
Qed.

Lemma cleanLoop_unrooted (n : nat) :
  forall (rest out : gostring) (dd : nat),
    length rest <= n ->
    rooted out = false ->
    rooted (path.cleanLoop false rest out dd) = false.
Proof.
  induction n as [|n IH]; intros rest out dd L R.
  - destruct rest; [exact R | simpl in L; lia].
  - destruct rest as [|c tl]; [exact R|]. simpl in L.
    destruct (ascii_dec c slash) as [->|N].
    { rewrite cleanLoop_slash. apply IH; [lia | exact R]. }
    pose proof (afterElem_length tl) as LA.
    destruct (list_eq_dec ascii_dec (c :: elemOf tl) (str ".")) as [E1|N1].
    { change (str ".") with [dot] in E1. inversion E1 as [[Ec Et]].
      rewrite cleanLoop_dot by (apply elemOf_nil_iff; exact Et).
      apply IH; [lia | exact R]. }
    destruct (list_eq_dec ascii_dec (c :: elemOf tl) (str "..")) as [E2|N2].
    { change (str "..") with [dot; dot] in E2. inversion E2 as [[Ec Et]].
      destruct tl as [|d tl2]; [discriminate|].
      cbn [elemOf] in Et. destruct (Ascii.eqb d slash) eqn:Ed; [discriminate|].
      inversion Et as [[Ed' Et2]].
      rewrite cleanLoop_dotdot by (apply elemOf_nil_iff; exact Et2).
      simpl in L. cbn [negb].
      destruct (dd <? length out).
      - apply IH; [lia|]. apply rooted_firstn; exact R.
      - apply IH; [lia|]. destruct out as [|x out]; [reflexivity|].
        cbn [length Nat.ltb Nat.leb app rooted]. exact R. }
    rewrite (cleanLoop_elem false c tl out dd N N1 N2).
    apply IH; [lia|]. apply rooted_withSlash_elem; assumption.
Qed.

Lemma Clean_relative (p : gostring) :
  rooted p = false -> rooted (path.Clean p) = false.
Proof.
  intros R. destruct p as [|c tl]; [reflexivity|].
  unfold path.Clean. cbn [rooted] in R. rewrite R.
  destruct (length (path.cleanLoop false (c :: tl) [] 0) =? 0); [reflexivity|].
  apply (@cleanLoop_unrooted (length (c :: tl))); [lia | reflexivity].
Qed.

Lemma splitLoop_relative (fuel : nat) :
  forall (p : gostring) (parts : list gostring),
    rooted p = false -> splitLoop fuel p parts = None.
Proof.
  induction fuel as [|fuel IH]; intros p parts R; [reflexivity|].
  cbn [splitLoop]. rewrite streq_neq by (intros ->; discriminate).
  destruct (path.Split (path.Clean p)) as [dir last] eqn:E.
  apply IH.
  destruct (Split_fst_firstn (path.Clean p)) as [k Hk].
  rewrite E in Hk. cbn [fst] in Hk. rewrite Hk.
  apply rooted_firstn, Clean_relative; exact R.
Qed.

(** ** One turn of the first loop on an absolute path *)

Lemma turn_absolute (p : gostring) :
  rooted p = true -> p <> [slash] ->
  let p' := fst (path.Split (path.Clean p)) in
  rooted p' = true /\ length p' < length p /\ depth p' = depth p - 1.
Proof.
  intros R NE p'. subst p'.
  pose proof (rooted_length p R NE) as L2.
  pose proof (joinAbs_normalSegments_length p R) as LJ.
  pose proof (normalSegments_plain p) as P.
  rewrite Clean_absolute by exact R. unfold depth.
  destruct (normalSegments p) as [|s0 stk0] eqn:E.
  - change (fst (path.Split (render []))) with [slash].
    split; [reflexivity | split; [simpl; lia | reflexivity]].
  - destruct (exists_last (l:=s0 :: stk0)) as [init [l El]]; [discriminate|].
    rewrite El in *. apply Forall_app in P as [Pi Pl].
    inversion Pl as [|? ? Pl0 _]; subst.
    rewrite Split_render_snoc by (apply plainSegment_good; exact Pl0).
    cbn [fst]. rewrite normalSegments_joinAbs_slash by exact Pi.
    repeat split.
    + apply rooted_joinAbs_slash.
    + rewrite joinAbs_snoc in LJ. rewrite length_app in *. cbn [length] in *.
      destruct Pl0 as (NEl & _). destruct l; [contradiction|].
      cbn [length] in LJ. lia.
    + rewrite length_app. cbn [length]. lia.
Qed.

(** ** Fuel *)

Lemma splitLoop_fuel_mono (f : nat) :
  forall (f' : nat) (p : gostring) (parts r : list gostring),
    splitLoop f p parts = Some r -> f <= f' -> splitLoop f' p parts = Some r.
Proof.
  induction f as [|f IH]; intros f' p parts r E L; [discriminate|].
  destruct f' as [|f']; [lia|].
  cbn [splitLoop] in *. destruct (streq p (str "/")); [exact E|].
  destruct (path.Split (path.Clean p)) as [dir last].
  apply IH with (1 := E). lia.
Qed.

Lemma splitPathsFuel_mono (f f' : nat) (p : gostring) (r : list gostring) :
  splitPathsFuel f p = Some r -> f <= f' -> splitPathsFuel f' p = Some r.
Proof.
  unfold splitPathsFuel. intros E L.
  destruct (splitLoop f p []) as [parts|] eqn:E1; [|discriminate].
  rewrite (splitLoop_fuel_mono _ _ _ _ _ E1 L). exact E.
Qed.

Lemma splitPathsFuel_relative (f : nat) (p : gostring) :
  rooted p = false -> splitPathsFuel f p = None.
Proof.
  intros R. unfold splitPathsFuel. rewrite splitLoop_relative by exact R.
  reflexivity.
Qed.

(** The fuel [splitPaths] runs with is enough: a result reached with any
    fuel is the result of [splitPaths]. *)
Lemma splitPaths_fuel_enough (f : nat) (p : gostring) (r : list gostring) :
  splitPathsFuel f p = Some r -> splitPaths p = Some r.
Proof.
  intros E. destruct (rooted p) eqn:R.
  - pose proof (splitPaths_absolute p R) as A. unfold splitPaths in A.
    pose proof (splitPathsFuel_mono _ _ _ _ A (Nat.le_max_r f (S (length p)))) as A'.
    pose proof (splitPathsFuel_mono _ _ _ _ E (Nat.le_max_l f (S (length p)))) as E'.
    rewrite E' in A'. inversion A'; subst. exact A.
  - rewrite splitPathsFuel_relative in E by exact R. discriminate.
Qed.
(** ** Ancestor chains *)

Lemma chainFrom_length (segs : list gostring) (base : gostring) :
  length (chainFrom base segs) = length segs.
Proof.
  revert base; induction segs as [|s segs IH]; intros base; [reflexivity|].
  cbn [chainFrom length]. rewrite IH. reflexivity.
Qed.

Lemma chainFrom_nth (segs : list gostring) :
  forall (base : gostring) (i : nat),
    i < length segs ->
    nth i (chainFrom base segs) [] = base ++ joinAbs (firstn (S i) segs).
Proof.
  induction segs as [|s segs IH]; intros base i L; [simpl in L; lia|].
  cbn [chainFrom]. destruct i as [|i].
  - cbn [nth firstn]. unfold joinAbs. cbn. rewrite app_nil_r. reflexivity.
  - cbn [nth]. simpl in L. rewrite IH by lia.
    change (firstn (S (S i)) (s :: segs)) with (s :: firstn (S i) segs).
    rewrite joinAbs_cons, <- app_assoc. reflexivity.
Qed.

Lemma chainFrom_last (segs : list gostring) (base : gostring) :
  segs <> [] -> last (chainFrom base segs) [] = base ++ joinAbs segs.
Proof.
  revert base; induction segs as [|s segs IH]; intros base NE; [contradiction|].
  destruct segs as [|s' segs].
  - cbn. rewrite app_nil_r. reflexivity.
  - change (chainFrom base (s :: s' :: segs))
      with ((base ++ slash :: s) :: chainFrom (base ++ slash :: s) (s' :: segs)).
    change (last ((base ++ slash :: s) :: chainFrom (base ++ slash :: s) (s' :: segs)) [])
      with (last (chainFrom (base ++ slash :: s) (s' :: segs)) []).
    rewrite IH by discriminate.
    rewrite (joinAbs_cons s), <- app_assoc. reflexivity.
Qed.

Lemma chainFrom_strictPrefix (segs : list gostring) (base : gostring) (i : nat) :
  S i < length segs ->
  strictPrefix (nth i (chainFrom base segs) [])
               (nth (S i) (chainFrom base segs) []).
Proof.
  intros L. rewrite !chainFrom_nth by lia.
  exists (slash :: nth (S i) segs []). split; [discriminate|].
  pose proof (firstn_S_nth _ [] segs (S i) L) as E.
  unfold gostring in *. rewrite E, joinAbs_snoc, <- app_assoc. reflexivity.
Qed.

Lemma normalSegments_plain_id (p : gostring) :
  Forall plainSegment (segments p) -> normalSegments p = segments p.
Proof. intros P; unfold normalSegments; apply resolve_plain_id; exact P. Qed.

Lemma Clean_root_iff (p : gostring) :
  rooted p = true -> (path.Clean p = str "/" <-> normalSegments p = []).
Proof.
  intros R. rewrite Clean_absolute by exact R.
  pose proof (normalSegments_plain p) as P.
  destruct (normalSegments p) as [|s l].
  - split; reflexivity.
  - inversion P as [|? ? (NE & _) _]; subst.
    split; [|discriminate]. intros F. exfalso.
    apply (f_equal (@length ascii)) in F.
    destruct (joinAbs_length_cons s l) as [L|E]; [|contradiction].
    change (render (s :: l)) with (joinAbs (s :: l)) in F.
    change (length (str "/")) with 1 in F. lia.
Qed.

(** X1. On every absolute path whose normal form is not the root,
    [splitPaths] returns the ancestor chain: one entry per segment of the
    normal form, entry [i] being the path of the first [i + 1] segments,
    so each entry is a strict prefix of the next, and the last one is the
    normal form. *)
Theorem splitPaths_ancestor_chain (p : gostring) :
  rooted p = true ->
  path.Clean p <> str "/" ->
  exists chain,
    splitPaths p = Some chain /\
    length chain = depth p /\
    (forall i, i < length chain ->
               nth i chain [] = joinAbs (firstn (S i) (normalSegments p))) /\
    (forall i, S i < length chain ->
               strictPrefix (nth i chain []) (nth (S i) chain [])) /\
    last chain [] = path.Clean p.
Proof.
  intros R NR.
  assert (NE : normalSegments p <> []).
  { intros F. apply NR. apply Clean_root_iff; assumption. }
  exists (chainFrom [] (normalSegments p)).
  rewrite splitPaths_absolute by exact R.
  rewrite Clean_absolute by exact R. unfold depth.
  rewrite chainFrom_length.
  destruct (normalSegments p) as [|s l] eqn:E; [contradiction|].
  split; [reflexivity|]. split; [reflexivity|]. split; [|split].
  - intros i L. rewrite chainFrom_nth by exact L. reflexivity.
  - intros i L. apply chainFrom_strictPrefix; exact L.
  - rewrite chainFrom_last by discriminate. reflexivity.
Qed.

(** ** The claims *)

(** C7. [splitPaths] applied to the root path ["/"] returns the empty
    sequence. *)
Theorem splitPaths_root : splitPaths (str "/") = Some [].
Proof. reflexivity. Qed.

(** C1. The entry count breaks on the absolute paths, other than ["/"]
    itself, whose normal form is the root (["//"], ["/."], ["/a/.."]):
    such a path has no segment, yet [splitPaths] returns one entry for it,
    the root.  The loop tests [fullPath != "/"] on the path as given,
    before [path.Clean] is applied to it.  On every other absolute path
    the chain is as stated ([splitPaths_ancestor_chain]). *)
Theorem splitPaths_unnormalised_root (p : gostring) :
  rooted p = true ->
  p <> str "/" ->
  path.Clean p = str "/" ->
  depth p = 0 /\ splitPaths p = Some [str "/"].
Proof.
  intros R NE C. apply (Clean_root_iff p R) in C.
  rewrite splitPaths_absolute by exact R.
  unfold depth. rewrite C. rewrite (streq_neq _ _ NE). split; reflexivity.
Qed.

(** Such a path reaches [splitPaths] from [New]: with [BaseDirectory]
    set to ["/"] and empty role, environment and service, the derived path
    is ["////"], and [createFullPath] asks for the creation of ["/"]. *)
Example createFullPath_creates_root :
  New rootBaseGlobals [] [] [] [str "zk1:2181"]
  = Returns (mkServerSet (5 * time.Second)%Z [] [] [] [str "zk1:2181"]) /\
  directoryPath rootBaseGlobals
                (mkServerSet (5 * time.Second)%Z [] [] [] [str "zk1:2181"])
  = str "////" /\
  splitPaths (str "////") = Some [str "/"] /\
  createFullPath rootBaseGlobals
                 (mkServerSet (5 * time.Second)%Z [] [] [] [str "zk1:2181"])
                 (mkFakeZk [] [])
  = Some (None, mkFakeZk [str "/"] []).
Proof. repeat split. Qed.

Lemma splitPaths_unnormalised_root_witness :
  depth (str "//") = 0 /\ splitPaths (str "//") = Some [str "/"].
Proof.
  apply (splitPaths_unnormalised_root (str "//")).
  - reflexivity.
  - discriminate.
  - reflexivity.
Defined.

(** *** Hierarchy creation and verification *)

Section ClientClaims.

Context {Conn : Type} `{zk.Client Conn}.

Lemma checkLoop_existAll (pre rest : list gostring) (c c1 : Conn) :
  existAll pre c = Some c1 ->
  checkLoop (pre ++ rest) c = checkLoop rest c1.
Proof.
  revert c; induction pre as [|key pre IH]; intros c E.
  - inversion E; reflexivity.
  - cbn [existAll] in E. cbn [app checkLoop].
    destruct (zk.Exists key c) as [[ex err] c'].
    destruct ex; [|discriminate]. destruct err; [discriminate|].
    cbn. apply IH; exact E.
Qed.

(** C2. When the existence checks reach a path that is reported absent
    with a [nil] error, [checkExistsFullPath] returns that [nil] error:
    the caller is told of no failure, although the node is missing. *)
Theorem checkExistsFullPath_absent_nil
        (g : Globals) (ss : ServerSet) (c : Conn)
        (pre : list gostring) (key : gostring) (post : list gostring)
        (c1 c2 : Conn) :
  splitPaths (directoryPath g ss) = Some (pre ++ key :: post) ->
  existAll pre c = Some c1 ->
  zk.Exists key c1 = ((false, None), c2) ->
  checkExistsFullPath g ss c = Some (None, c2).
Proof.
  intros S E A. unfold checkExistsFullPath. rewrite S.
  rewrite (checkLoop_existAll pre (key :: post) c c1 E).
  cbn [checkLoop]. rewrite A. reflexivity.
Qed.

Lemma createLoop_createAll (pre rest : list gostring) (c c1 : Conn) :
  createAll pre c = Some c1 ->
  createLoop (pre ++ rest) c = createLoop rest c1.
Proof.
  revert c; induction pre as [|key pre IH]; intros c E.
  - inversion E; reflexivity.
  - cbn [createAll] in E. cbn [app createLoop].
    destruct (zk.Create key [] 0%Z (zk.WorldACL zk.PermAll) c) as [[created err] c'].
    destruct err as [e|]; [|apply IH; exact E].
    destruct (zk.Error_eq_dec e zk.ErrNodeExists) as [->|N].
    + apply IH; exact E.
    + destruct e; try discriminate. contradiction.
Qed.

(** C3. [createFullPath] returns [nil] when every creation over the
    ancestor chain returns no error or [ErrNodeExists].  At the first
    creation that returns another error it returns that error, and the
    connection it leaves is the one that creation left: no later path is
    tried and nothing made before is undone. *)
Theorem createFullPath_outcomes
        (g : Globals) (ss : ServerSet) (c : Conn) (paths : list gostring) :
  splitPaths (directoryPath g ss) = Some paths ->
  (forall c', createAll paths c = Some c' ->
              createFullPath g ss c = Some (None, c')) /\
  (forall pre key post c1 c2 created e,
      paths = pre ++ key :: post ->
      createAll pre c = Some c1 ->
      zk.Create key [] 0%Z (zk.WorldACL zk.PermAll) c1
      = ((created, Some e), c2) ->
      e <> zk.ErrNodeExists ->
      createFullPath g ss c = Some (Some e, c2)).
Proof.
  intros S. unfold createFullPath. rewrite S. split.
  - intros c' E. f_equal.
    rewrite <- (app_nil_r paths).
    rewrite (createLoop_createAll paths [] c c' E). reflexivity.
  - intros pre key post c1 c2 created e -> E C N. f_equal.
    rewrite (createLoop_createAll pre (key :: post) c c1 E).
    cbn [createLoop]. rewrite C.
    destruct (zk.Error_eq_dec e zk.ErrNodeExists); [contradiction | reflexivity].
Qed.

End ClientClaims.

Lemma checkExistsFullPath_absent_nil_witness :
  zk.Exists (str "/aurora/www/prod/frontend") zkMissingLeaf
  = ((false, None), zkMissingLeaf) /\
  checkExistsFullPath defaultGlobals wwwProdFrontend zkMissingLeaf
  = Some (None, zkMissingLeaf).
Proof.
  split; [reflexivity|].
  apply (@checkExistsFullPath_absent_nil FakeZk fakeClient defaultGlobals
           wwwProdFrontend zkMissingLeaf
           [str "/aurora"; str "/aurora/www"; str "/aurora/www/prod"]
           (str "/aurora/www/prod/frontend") [] zkMissingLeaf zkMissingLeaf);
    reflexivity.
Defined.

Lemma createFullPath_outcomes_witness :
  createFullPath defaultGlobals wwwProdFrontend zkDeniedProd
  = Some (Some zk.ErrNoAuth,
          mkFakeZk [str "/aurora"; str "/aurora/www"]
                   [str "/aurora/www/prod"]).
Proof.
  refine (proj2 (@createFullPath_outcomes FakeZk fakeClient defaultGlobals
                   wwwProdFrontend zkDeniedProd
                   [str "/aurora"; str "/aurora/www"; str "/aurora/www/prod";
                    str "/aurora/www/prod/frontend"] _)
                [str "/aurora"; str "/aurora/www"] (str "/aurora/www/prod")
                [str "/aurora/www/prod/frontend"]
                (mkFakeZk [str "/aurora"; str "/aurora/www"]
                          [str "/aurora/www/prod"])
                _ [] zk.ErrNoAuth _ _ _ _).
  - reflexivity.
  - reflexivity.
  - reflexivity.
  - reflexivity.
  - discriminate.
Defined.

(** Creating the hierarchy twice: the second run meets [ErrNodeExists] on
    every path and returns [nil]. *)
Example createFullPath_twice :
  exists z1,
    createFullPath defaultGlobals wwwProdFrontend (mkFakeZk [] [])
    = Some (None, z1) /\
    nodes z1 = [str "/aurora"; str "/aurora/www"; str "/aurora/www/prod";
                str "/aurora/www/prod/frontend"] /\
    createFullPath defaultGlobals wwwProdFrontend z1 = Some (None, z1).
Proof. eexists. repeat split. Qed.

(** C4. [New] panics exactly when the service name contains ['/'].  It is
    a function of its arguments alone, with no connection among them and
    none made, so nothing has touched the network when it panics; and a
    call that panics returns no [ServerSet]. *)
Theorem New_panics_iff_slash
        (g : Globals) (role environment service : gostring)
        (zookeepers : list gostring) :
  ((exists msg, New g role environment service zookeepers = Panics msg)
   <-> In slash service) /\
  ((exists ss, New g role environment service zookeepers = Returns ss)
   <-> ~ In slash service) /\
  (forall msg, New g role environment service zookeepers = Panics msg ->
               forall ss, New g role environment service zookeepers
                          <> Returns ss).
Proof.
  unfold New. destruct (Contains service (str "/")) eqn:E.
  - apply Contains_slash_iff in E. repeat split.
    + intros _; exact E.
    + intros _; eauto.
    + intros [ss F]; discriminate.
    + intros F; contradiction.
    + intros msg _ ss F; discriminate.
  - apply Contains_slash_false_iff in E. repeat split.
    + intros [msg F]; discriminate.
    + intros F; contradiction.
    + intros _; exact E.
    + intros _; eauto.
    + intros msg F; discriminate.
Qed.

Lemma New_returns (g : Globals) (role environment service : gostring)
      (zookeepers : list gostring) :
  ~ In slash service ->
  New g role environment service zookeepers
  = Returns (mkServerSet (DefaultZKTimeout g) role environment service
                         zookeepers).
Proof.
  intros N. unfold New.
  apply Contains_slash_false_iff in N. rewrite N. reflexivity.
Qed.

Lemma HasPrefix_app (a b : gostring) : HasPrefix (a ++ b) a = true.
Proof.
  induction a as [|x a IH]; [reflexivity|].
  cbn [app HasPrefix]. rewrite Ascii.eqb_refl, IH. reflexivity.
Qed.

(** C5. With the default [BaseZnodePath], the path derived for a service
    name without separator is [base/role/environment/service]; it depends
    on nothing else, and begins with the base.  For [www], [prod],
    [frontend] under [/aurora] it is [/aurora/www/prod/frontend]. *)
Theorem directoryPath_default
        (g : Globals) (role_ environment_ service_ : gostring)
        (zookeepers : list gostring) :
  BaseZnodePath g = None ->
  ~ In slash service_ ->
  (exists ss,
      New g role_ environment_ service_ zookeepers = Returns ss /\
      directoryPath g ss
      = BaseDirectory g ++ str "/" ++ role_ ++ str "/" ++ environment_
                      ++ str "/" ++ service_ /\
      HasPrefix (directoryPath g ss) (BaseDirectory g) = true /\
      (forall zookeepers' ss',
          New g role_ environment_ service_ zookeepers' = Returns ss' ->
          directoryPath g ss' = directoryPath g ss)) /\
  (exists ss,
      New defaultGlobals (str "www") (str "prod") (str "frontend") zookeepers
      = Returns ss /\
      BaseDirectory defaultGlobals = str "/aurora" /\
      directoryPath defaultGlobals ss = str "/aurora/www/prod/frontend").
Proof.
  intros D N. split.
  - eexists. split; [apply New_returns; exact N|].
    unfold directoryPath. rewrite D. cbn [role environment service].
    unfold defaultBaseZnodePath. split; [reflexivity|].
    split; [apply HasPrefix_app|].
    intros zookeepers' ss' E. rewrite New_returns in E by exact N.
    inversion E; subst. reflexivity.
  - eexists. split; [reflexivity|]. split; reflexivity.
Qed.

Lemma directoryPath_default_witness :
  exists ss,
    New defaultGlobals (str "www") (str "prod") (str "frontend")
        [str "zk1:2181"] = Returns ss /\
    directoryPath defaultGlobals ss = str "/aurora/www/prod/frontend".
Proof.
  destruct (directoryPath_default defaultGlobals (str "www") (str "prod")
              (str "frontend") [str "zk1:2181"]) as [[ss (E & P & _)] _].
  - reflexivity.
  - no_slash.
  - exists ss. split; [exact E | exact P].
Defined.

(** C6. [newEntity host port] has the endpoint [host], [port], a map of
    additional endpoints that is empty and not [nil], shard 0 and status
    [ALIVE]; for ["10.0.0.5"] and 8080 its JSON text is the one given. *)
Theorem newEntity_record (host : gostring) (port : Z) :
  ServiceEndpoint (newEntity host port) = mkEndpoint host port /\
  Host (ServiceEndpoint (newEntity host port)) = host /\
  Port (ServiceEndpoint (newEntity host port)) = port /\
  AdditionalEndpoints (newEntity host port) = Some [] /\
  AdditionalEndpoints (newEntity host port) <> None /\
  Shard (newEntity host port) = 0%Z /\
  Status (newEntity host port) = str "ALIVE" /\
  json.Marshal (newEntity (str "10.0.0.5") 8080)
  = Some (json.text
            "{'serviceEndpoint':{'host':'10.0.0.5','port':8080},'additionalEndpoints':{},'shard':0,'status':'ALIVE'}").
Proof.
  repeat split; try reflexivity. discriminate.
Qed.

Section Timeout.

Context {Conn : Type} `{zk.Client Conn}.

(** C8. The [ServerSet] that [New] returns carries the default timeout,
    which is 5 seconds unless the package variable was changed, and the
    role, environment, service and servers it was given.  Assigning the
    timeout field afterwards changes the timeout used to connect and
    nothing else. *)
Theorem New_default_timeout
        (g : Globals) (role_ environment_ service_ : gostring)
        (zookeepers : list gostring) :
  ~ In slash service_ ->
  exists ss,
    New g role_ environment_ service_ zookeepers = Returns ss /\
    ZKTimeout ss = DefaultZKTimeout g /\
    DefaultZKTimeout defaultGlobals = 5000000000%Z /\
    DefaultZKTimeout defaultGlobals = (5 * time.Second)%Z /\
    role ss = role_ /\ environment ss = environment_ /\
    service ss = service_ /\ zkServers ss = zookeepers /\
    connectToZookeeper ss = zk.Connect zookeepers (DefaultZKTimeout g) /\
    forall d : time.Duration,
      ZKTimeout (setZKTimeout d ss) = d /\
      role (setZKTimeout d ss) = role_ /\
      environment (setZKTimeout d ss) = environment_ /\
      service (setZKTimeout d ss) = service_ /\
      zkServers (setZKTimeout d ss) = zookeepers /\
      connectToZookeeper (setZKTimeout d ss) = zk.Connect zookeepers d.
Proof.
  intros N. eexists. split; [apply New_returns; exact N|].
  repeat split.
Qed.

End Timeout.

Lemma New_default_timeout_witness :
  exists ss,
    New defaultGlobals (str "www") (str "prod") (str "frontend")
        [str "zk1:2181"] = Returns ss /\
    ZKTimeout ss = 5000000000%Z /\
    ZKTimeout (setZKTimeout 30000000000%Z ss) = 30000000000%Z.
Proof.
  destruct (@New_default_timeout FakeZk fakeClient defaultGlobals
              (str "www") (str "prod") (str "frontend") [str "zk1:2181"])
    as [ss (E & T & _ & _ & _ & _ & _ & _ & _ & O)].
  - no_slash.
  - exists ss. split; [exact E|]. split; [exact T|].
    exact (proj1 (O 30000000000%Z)).
Defined.

(** C9. The first loop of [splitPaths] ends exactly on the paths that
    begin with ['/'].  On such a path other than ["/"] one turn leaves a
    path that still begins with ['/'], is strictly shorter, and has one
    segment fewer (none, if it had none); on any other path the loop is
    still running after any number of turns. *)
Theorem splitPaths_terminates_iff_absolute (p : gostring) :
  ((exists fuel chain, splitPathsFuel fuel p = Some chain)
   <-> rooted p = true) /\
  (rooted p = true -> exists chain, splitPaths p = Some chain) /\
  (rooted p = true -> p <> str "/" ->
   rooted (fst (path.Split (path.Clean p))) = true /\
   length (fst (path.Split (path.Clean p))) < length p /\
   depth (fst (path.Split (path.Clean p))) = depth p - 1) /\
  (rooted p = false ->
   forall fuel parts, splitLoop fuel p parts = None).
Proof.
  split; [split|split; [|split]].
  - intros (fuel & chain & E). destruct (rooted p) eqn:R; [reflexivity|].
    rewrite splitPathsFuel_relative in E by exact R. discriminate.
  - intros R. exists (S (length p)). eexists.
    apply (splitPaths_absolute p R).
  - intros R. eexists. apply (splitPaths_absolute p R).
  - intros R NE. apply (turn_absolute p R NE).
  - intros R fuel parts. apply splitLoop_relative; exact R.
Qed.

Lemma splitPaths_terminates_iff_absolute_witness :
  (exists chain, splitPaths (str "/a/b") = Some chain) /\
  (forall fuel parts, splitLoop fuel (str "a/b") parts = None).
Proof.
  destruct (splitPaths_terminates_iff_absolute (str "/a/b")) as (_ & T & _).
  destruct (splitPaths_terminates_iff_absolute (str "a/b")) as (_ & _ & _ & D).
  split; [apply T; reflexivity | apply D; reflexivity].
Defined.
Lemma rooted_app (a b : gostring) : rooted a = true -> rooted (a ++ b) = true.
Proof. destruct a; [discriminate | intros R; exact R]. Qed.

Lemma segments_directoryPath (base role_ environment_ service_ : gostring) :
  segments (base ++ str "/" ++ role_ ++ str "/" ++ environment_
                 ++ str "/" ++ service_)
  = segments base ++ segments role_ ++ segments environment_
             ++ segments service_.
Proof.
  change (str "/") with [slash]. cbn [app].
  rewrite !segments_app_slash. reflexivity.
Qed.

Lemma segments_service (service_ : gostring) :
  ~ In slash service_ ->
  segments service_ = match service_ with [] => [] | _ :: _ => [service_] end.
Proof.
  intros N. destruct service_ as [|c s]; [reflexivity|].
  apply segments_no_slash; [discriminate | exact N].
Qed.

(** C10, as the code has it.  [New] checks the service name only: with a
    service name free of ['/'] it returns for every role and environment,
    and the default path holds both as given.  The service name is one
    segment, or none when it is empty.  Under a base that begins with
    ['/'], with no [.] or [..] among the segments of base, role,
    environment and service, and at least one segment among them, the
    hierarchy has one level for each of these segments. *)
Theorem New_checks_service_only
        (g : Globals) (role_ environment_ service_ : gostring)
        (zookeepers : list gostring) :
  ~ In slash service_ ->
  exists ss,
    New g role_ environment_ service_ zookeepers = Returns ss /\
    segments service_
    = match service_ with [] => [] | _ :: _ => [service_] end /\
    (BaseZnodePath g = None ->
     directoryPath g ss
     = BaseDirectory g ++ str "/" ++ role_ ++ str "/" ++ environment_
                     ++ str "/" ++ service_ /\
     (rooted (BaseDirectory g) = true ->
      Forall plainSegment
             (segments (BaseDirectory g) ++ segments role_
                       ++ segments environment_ ++ segments service_) ->
      segments (BaseDirectory g) ++ segments role_
               ++ segments environment_ ++ segments service_ <> [] ->
      exists chain,
        splitPaths (directoryPath g ss) = Some chain /\
        length chain
        = length (segments (BaseDirectory g)) + length (segments role_)
          + length (segments environment_) + length (segments service_))).
Proof.
  intros N. eexists. split; [apply New_returns; exact N|].
  split; [apply segments_service; exact N|].
  intros D. unfold directoryPath. rewrite D.
  cbn [role environment service]. unfold defaultBaseZnodePath.
  split; [reflexivity|]. intros R P NE0.
  set (p := BaseDirectory g ++ str "/" ++ role_ ++ str "/" ++ environment_
                          ++ str "/" ++ service_).
  assert (Es : segments p
               = segments (BaseDirectory g) ++ segments role_
                          ++ segments environment_ ++ segments service_).
  { unfold p. apply segments_directoryPath. }
  assert (En : normalSegments p = segments p).
  { apply normalSegments_plain_id. rewrite Es. exact P. }
  assert (NE : normalSegments p <> []).
  { rewrite En, Es. exact NE0. }
  exists (chainFrom [] (normalSegments p)). split.
  - rewrite splitPaths_absolute by (apply rooted_app; exact R).
    destruct (normalSegments p); [contradiction | reflexivity].
  - rewrite chainFrom_length, En, Es, !length_app. lia.
Qed.

Lemma plainSegment_dec_example :
  Forall plainSegment
         [str "aurora"; str "team"; str "www"; str "prod"; str "frontend"].
Proof.
  repeat constructor; try discriminate; no_slash.
Qed.

Lemma New_checks_service_only_witness :
  exists ss chain,
    New defaultGlobals (str "team/www") (str "prod") (str "frontend")
        [str "zk1:2181"] = Returns ss /\
    directoryPath defaultGlobals ss = str "/aurora/team/www/prod/frontend" /\
    splitPaths (directoryPath defaultGlobals ss) = Some chain /\
    length chain = 5.
Proof.
  destruct (New_checks_service_only defaultGlobals (str "team/www")
              (str "prod") (str "frontend") [str "zk1:2181"])
    as [ss (E & _ & Q)].
  - no_slash.
  - destruct (Q eq_refl) as [Pth C].
    destruct (C eq_refl plainSegment_dec_example) as [chain [S L]].
    + discriminate.
    + exists ss, chain. repeat split; assumption.
Defined.

(** With an empty service name, which [New] accepts, the service adds no
    level. *)
Example empty_service_levels :
  New defaultGlobals (str "www") (str "prod") [] []
  = Returns (mkServerSet (5 * time.Second)%Z (str "www") (str "prod") [] [])
  /\
  splitPaths (directoryPath defaultGlobals
                (mkServerSet (5 * time.Second)%Z (str "www") (str "prod")
                             [] []))
  = Some [str "/aurora"; str "/aurora/www"; str "/aurora/www/prod"].
Proof. split; reflexivity. Qed.

(** C10 as stated fails: the role ["/"] contains a separator, the service
    name none, and the hierarchy for it has three levels, one fewer than
    without the separator. *)
Lemma extraLevels_counterexample :
  In slash (str "/") /\
  ~ In slash (str "frontend") /\
  ~ extraLevels defaultGlobals (str "/") (str "prod") (str "frontend").
Proof.
  split; [left; reflexivity|]. split.
  - no_slash.
  - intros (ss & chain & E & S & L).
    inversion E; subst. vm_compute in S. inversion S; subst.
    vm_compute in L. lia.
Qed.

Example extraLevels_ex :
  extraLevels defaultGlobals (str "team/www") (str "prod") (str "frontend").
Proof.
  eexists. eexists. split; [reflexivity|]. split; [reflexivity|].
  vm_compute. lia.
Qed.

Example scenario_chain :
  splitPaths (str "/aurora/www/prod/frontend")
  = Some [str "/aurora"; str "/aurora/www"; str "/aurora/www/prod";
          str "/aurora/www/prod/frontend"].
Proof. reflexivity. Qed.

(** X16. The JSON text of a new record, for any host written without
    escapes: the additional endpoints are always the empty object. *)
Lemma Marshal_newEntity (host : gostring) (port : Z) :
  forallb json.plainByte host = true ->
  json.Marshal (newEntity host port)
  = Some (json.text "{'serviceEndpoint':{'host':'" ++ host
            ++ json.text "','port':" ++ json.encodeInt port
            ++ json.text "},'additionalEndpoints':{},'shard':0,'status':'ALIVE'}").
Proof.
  intros P. unfold json.Marshal, newEntity.
  cbn [ServiceEndpoint AdditionalEndpoints Shard Status].
  unfold json.encodeEndpoint, json.encodeString at 1.
  cbn [Host Port]. rewrite P.
  change (json.encodeMap (Some [])) with (Some (str "{}")).
  change (json.encodeString statusAlive)
    with (Some (json.dquote :: str "ALIVE" ++ [json.dquote])).
  cbv iota beta. f_equal. unfold json.member.
  change (json.encodeInt 0) with (str "0").
  generalize (json.encodeInt port). intros n.
  repeat (rewrite <- ?app_assoc; cbn [app]).
  cbv. reflexivity.
Qed.
(** * Further properties *)

(** ** The chain and the normal form *)

Lemma rooted_joinAbs (stk : list gostring) :
  stk <> [] -> rooted (joinAbs stk) = true.
Proof. destruct stk; [contradiction | reflexivity]. Qed.

Lemma normalSegments_joinAbs (stk : list gostring) :
  Forall plainSegment stk -> normalSegments (joinAbs stk) = stk.
Proof.
  intros P. unfold normalSegments.
  rewrite segments_joinAbs by (apply Forall_plain_good; exact P).
  apply (resolve_plain_id stk [] P).
Qed.

Lemma normalSegments_render (stk : list gostring) :
  Forall plainSegment stk -> normalSegments (render stk) = stk.
Proof.
  intros P. destruct stk as [|s l]; [reflexivity|].
  apply normalSegments_joinAbs; exact P.
Qed.

Lemma Clean_joinAbs (stk : list gostring) :
  Forall plainSegment stk -> stk <> [] ->
  path.Clean (joinAbs stk) = joinAbs stk.
Proof.
  intros P NE. rewrite Clean_absolute by (apply rooted_joinAbs; exact NE).
  rewrite normalSegments_joinAbs by exact P.
  destruct stk; [contradiction | reflexivity].
Qed.

Lemma splitPaths_joinAbs (stk : list gostring) :
  Forall plainSegment stk -> stk <> [] ->
  splitPaths (joinAbs stk) = Some (chainFrom [] stk).
Proof.
  intros P NE. rewrite splitPaths_absolute by (apply rooted_joinAbs; exact NE).
  rewrite normalSegments_joinAbs by exact P.
  destruct stk; [contradiction | reflexivity].
Qed.

Lemma chainFrom_firstn (k : nat) :
  forall (stk : list gostring) (base : gostring),
    firstn k (chainFrom base stk) = chainFrom base (firstn k stk).
Proof.
  induction k as [|k IH]; intros stk base; [reflexivity|].
  destruct stk as [|s stk]; [reflexivity|].
  cbn [chainFrom firstn]. rewrite IH. reflexivity.
Qed.

Lemma chainFrom_app (l1 l2 : list gostring) (base : gostring) :
  chainFrom base (l1 ++ l2)
  = chainFrom base l1 ++ chainFrom (base ++ joinAbs l1) l2.
Proof.
  revert base; induction l1 as [|s l1 IH]; intros base.
  - cbn. rewrite app_nil_r. reflexivity.
  - cbn [app chainFrom]. rewrite IH, joinAbs_cons.
    rewrite <- app_assoc. reflexivity.
Qed.

Lemma Forall_firstn_plain (k : nat) (stk : list gostring) :
  Forall plainSegment stk -> Forall plainSegment (firstn k stk).
Proof.
  intros P. apply Forall_forall. intros x Hx.
  rewrite Forall_forall in P. apply P.
  rewrite <- (firstn_skipn k stk). apply in_or_app. left. exact Hx.
Qed.

Lemma splitPaths_absolute_chain (p : gostring) (chain : list gostring) :
  rooted p = true -> path.Clean p <> str "/" ->
  splitPaths p = Some chain ->
  normalSegments p <> [] /\ chain = chainFrom [] (normalSegments p).
Proof.
  intros R NR S.
  assert (NE : normalSegments p <> []).
  { intros F. apply NR. apply (Clean_root_iff p R). exact F. }
  split; [exact NE|].
  rewrite splitPaths_absolute in S by exact R.
  destruct (normalSegments p); [contradiction|].
  inversion S. reflexivity.
Qed.

(** X2. The chain depends on the normal form only: redundant and trailing
    separators, [.] and [..] segments leave it unchanged. *)
Theorem splitPaths_normal_form (p : gostring) :
  rooted p = true ->
  path.Clean p <> str "/" ->
  splitPaths p = splitPaths (path.Clean p).
Proof.
  intros R NR.
  assert (NE : normalSegments p <> []).
  { intros F. apply NR. apply (Clean_root_iff p R). exact F. }
  pose proof (normalSegments_plain p) as P.
  rewrite (splitPaths_absolute p R).
  rewrite (Clean_absolute p R).
  destruct (normalSegments p) as [|s l] eqn:E; [contradiction|].
  change (render (s :: l)) with (joinAbs (s :: l)).
  rewrite splitPaths_joinAbs by (auto; discriminate). reflexivity.
Qed.

Lemma splitPaths_normal_form_witness :
  splitPaths (str "//aurora/./www/x/../prod/")
  = splitPaths (path.Clean (str "//aurora/./www/x/../prod/")).
Proof.
  apply (splitPaths_normal_form (str "//aurora/./www/x/../prod/")).
  - reflexivity.
  - discriminate.
Defined.

(** X3. Every path [splitPaths] returns for an absolute path is absolute
    and in normal form. *)
Theorem splitPaths_entries_clean (p : gostring) (chain : list gostring)
        (e : gostring) :
  rooted p = true ->
  splitPaths p = Some chain ->
  In e chain ->
  rooted e = true /\ path.Clean e = e.
Proof.
  intros R S Hin.
  rewrite splitPaths_absolute in S by exact R.
  pose proof (normalSegments_plain p) as P.
  destruct (normalSegments p) as [|s l] eqn:E.
  - destruct (streq p (str "/")); inversion S; subst; [contradiction|].
    destruct Hin as [<-|[]]. split; reflexivity.
  - assert (NE : s :: l <> []) by discriminate.
    remember (s :: l) as stk eqn:Es. clear Es.
    assert (Ec : chain = chainFrom [] stk) by (inversion S; reflexivity).
    subst chain. clear S.
    destruct (In_nth _ _ [] Hin) as (i & Li & Ei).
    unfold gostring in *.
    rewrite chainFrom_length in Li.
    rewrite chainFrom_nth in Ei by exact Li. cbn [app] in Ei. subst e.
    assert (NEi : firstn (S i) stk <> [])
      by (destruct stk; [contradiction | discriminate]).
    split.
    + apply rooted_joinAbs; exact NEi.
    + apply Clean_joinAbs; [apply Forall_firstn_plain; exact P | exact NEi].
Qed.

Lemma splitPaths_entries_clean_witness :
  rooted (str "/aurora/www") = true /\
  path.Clean (str "/aurora/www") = str "/aurora/www".
Proof.
  apply (splitPaths_entries_clean (str "/aurora//www/prod/")
           [str "/aurora"; str "/aurora/www"; str "/aurora/www/prod"]
           (str "/aurora/www")).
  - reflexivity.
  - reflexivity.
  - right; left; reflexivity.
Defined.

(** X4. The chain of an entry of a chain is the chain up to that
    entry. *)
Theorem splitPaths_prefix_closed (p : gostring) (chain : list gostring)
        (i : nat) :
  rooted p = true ->
  path.Clean p <> str "/" ->
  splitPaths p = Some chain ->
  i < length chain ->
  splitPaths (nth i chain []) = Some (firstn (S i) chain).
Proof.
  intros R NR S L.
  destruct (splitPaths_absolute_chain p chain R NR S) as [NE ->].
  pose proof (normalSegments_plain p) as P.
  rewrite chainFrom_length in L.
  rewrite chainFrom_nth by exact L. cbn [app].
  rewrite chainFrom_firstn.
  apply splitPaths_joinAbs.
  - apply Forall_firstn_plain; exact P.
  - destruct (normalSegments p); [contradiction | discriminate].
Qed.

Lemma splitPaths_prefix_closed_witness :
  splitPaths (str "/aurora/www") = Some [str "/aurora"; str "/aurora/www"].
Proof.
  apply (splitPaths_prefix_closed (str "/aurora/www/prod/frontend")
           [str "/aurora"; str "/aurora/www"; str "/aurora/www/prod";
            str "/aurora/www/prod/frontend"] 1).
  - reflexivity.
  - discriminate.
  - reflexivity.
  - simpl; lia.
Defined.

Lemma chainFrom_depths (stk : list gostring) :
  forall pre : list gostring,
    Forall plainSegment (pre ++ stk) ->
    map depth (chainFrom (joinAbs pre) stk)
    = seq (S (length pre)) (length stk).
Proof.
  induction stk as [|s stk IH]; intros pre P; [reflexivity|].
  cbn [chainFrom map length seq].
  rewrite <- joinAbs_snoc.
  replace (pre ++ s :: stk) with ((pre ++ [s]) ++ stk) in P
    by (rewrite <- app_assoc; reflexivity).
  rewrite IH by exact P.
  unfold depth at 1. rewrite normalSegments_joinAbs.
  - rewrite length_app. cbn [length]. rewrite Nat.add_1_r. reflexivity.
  - apply Forall_app in P as [P _]. exact P.
Qed.

(** X5. The entries of a chain have depths 1, 2, ..., so no path occurs
    twice. *)
Theorem splitPaths_depths (p : gostring) (chain : list gostring) :
  rooted p = true ->
  path.Clean p <> str "/" ->
  splitPaths p = Some chain ->
  map depth chain = seq 1 (length chain) /\ NoDup chain.
Proof.
  intros R NR S.
  destruct (splitPaths_absolute_chain p chain R NR S) as [NE ->].
  assert (D : map depth (chainFrom [] (normalSegments p))
              = seq 1 (length (chainFrom [] (normalSegments p)))).
  { rewrite chainFrom_length.
    apply (chainFrom_depths (normalSegments p) []).
    apply normalSegments_plain. }
  split; [exact D|].
  apply (NoDup_map_inv depth). rewrite D. apply seq_NoDup.
Qed.

Lemma splitPaths_depths_witness :
  map depth [str "/a"; str "/a/b"; str "/a/b/c"] = seq 1 3 /\
  NoDup [str "/a"; str "/a/b"; str "/a/b/c"].
Proof.
  apply (splitPaths_depths (str "/a/b/c")
           [str "/a"; str "/a/b"; str "/a/b/c"]).
  - reflexivity.
  - discriminate.
  - reflexivity.
Defined.

(** ** The derived path *)

Lemma split_at_first_slash (a b x y : gostring) :
  ~ In slash a -> ~ In slash b ->
  a ++ slash :: x = b ++ slash :: y ->
  a = b /\ x = y.
Proof.
  revert b; induction a as [|c a IH]; intros [|d b] Na Nb E.
  - inversion E; auto.
  - inversion E; subst. exfalso; apply Nb; left; reflexivity.
  - inversion E; subst. exfalso; apply Na; left; reflexivity.
  - inversion E; subst.
    destruct (IH b) as [-> ->]; auto.
    + intros F; apply Na; right; exact F.
    + intros F; apply Nb; right; exact F.
Qed.

(** X6. With the default [BaseZnodePath], two server sets whose roles
    and environments hold no separator have the same path only if they have
    the same role, environment and service. *)
Theorem directoryPath_injective (g : Globals) (ss1 ss2 : ServerSet) :
  BaseZnodePath g = None ->
  ~ In slash (role ss1) -> ~ In slash (environment ss1) ->
  ~ In slash (role ss2) -> ~ In slash (environment ss2) ->
  directoryPath g ss1 = directoryPath g ss2 ->
  role ss1 = role ss2 /\
  environment ss1 = environment ss2 /\
  service ss1 = service ss2.
Proof.
  intros D R1 E1 R2 E2. unfold directoryPath. rewrite D.
  unfold defaultBaseZnodePath. change (str "/") with [slash]. cbn [app].
  intros H. apply app_inv_head in H. inversion H as [H1]. clear H.
  destruct (split_at_first_slash _ _ _ _ R1 R2 H1) as [Er H2].
  destruct (split_at_first_slash _ _ _ _ E1 E2 H2) as [Ee Es].
  auto.
Qed.

Lemma directoryPath_injective_witness :
  role wwwProdFrontend = role (setZKTimeout 1%Z wwwProdFrontend) /\
  environment wwwProdFrontend
  = environment (setZKTimeout 1%Z wwwProdFrontend) /\
  service wwwProdFrontend = service (setZKTimeout 1%Z wwwProdFrontend).
Proof.
  apply (directoryPath_injective defaultGlobals wwwProdFrontend
           (setZKTimeout 1%Z wwwProdFrontend)).
  - reflexivity.
  - no_slash.
  - no_slash.
  - no_slash.
  - no_slash.
  - reflexivity.
Defined.

(** Without that condition paths collide: a separator in the role or the
    environment moves the boundary between them. *)
Example directoryPath_collision :
  directoryPath defaultGlobals
    (mkServerSet 0%Z (str "a/b") (str "c") (str "s") [])
  = directoryPath defaultGlobals
      (mkServerSet 0%Z (str "a") (str "b/c") (str "s") []).
Proof. reflexivity. Qed.

Lemma rooted_default_path (base r e s : gostring) :
  rooted (base ++ str "/" ++ r ++ str "/" ++ e ++ str "/" ++ s) = true
  <-> base = [] \/ rooted base = true.
Proof.
  destruct base as [|c base].
  - split; [auto | reflexivity].
  - cbn [app rooted]. split; [auto | intros [F|F]; [discriminate | exact F]].
Qed.

(** X7. With the default [BaseZnodePath], take a base directory that is
    empty or begins with ['/'], with segments [s1], ..., [sn], and let
    these, the role, the environment and the service be plain names.  The
    hierarchy is [/s1], [/s1/s2], ..., [/s1/.../sn], then, with [N] for
    [/s1/.../sn] (empty when the base has no segment), [N/role],
    [N/role/environment] and [N/role/environment/service]. *)
Theorem directoryPath_chain (g : Globals) (ss : ServerSet) :
  BaseZnodePath g = None ->
  BaseDirectory g = [] \/ rooted (BaseDirectory g) = true ->
  Forall plainSegment
         (segments (BaseDirectory g)
                   ++ [role ss; environment ss; service ss]) ->
  splitPaths (directoryPath g ss)
  = Some (chainFrom [] (segments (BaseDirectory g))
            ++ [joinAbs (segments (BaseDirectory g)) ++ str "/" ++ role ss;
                joinAbs (segments (BaseDirectory g)) ++ str "/" ++ role ss
                        ++ str "/" ++ environment ss;
                joinAbs (segments (BaseDirectory g)) ++ str "/" ++ role ss
                        ++ str "/" ++ environment ss
                        ++ str "/" ++ service ss]).
Proof.
  intros D B P. unfold directoryPath. rewrite D. unfold defaultBaseZnodePath.
  set (p := BaseDirectory g ++ str "/" ++ role ss ++ str "/"
                          ++ environment ss ++ str "/" ++ service ss).
  assert (R : rooted p = true) by (apply rooted_default_path; exact B).
  assert (Pn : Forall plainSegment [role ss; environment ss; service ss]).
  { apply Forall_app in P as [_ P]. exact P. }
  inversion Pn as [|? ? (NEr & Nr & _) Pn1]; subst.
  inversion Pn1 as [|? ? (NEe & Ne & _) Pn2]; subst.
  inversion Pn2 as [|? ? (NEs & Ns & _) _]; subst.
  assert (Es : segments p
               = segments (BaseDirectory g)
                          ++ [role ss; environment ss; service ss]).
  { unfold p. rewrite segments_directoryPath.
    rewrite (segments_no_slash (role ss)), (segments_no_slash (environment ss)),
      (segments_no_slash (service ss)) by assumption.
    reflexivity. }
  assert (En : normalSegments p = segments p).
  { apply normalSegments_plain_id. rewrite Es. exact P. }
  rewrite (splitPaths_absolute p R), En, Es.
  destruct (segments (BaseDirectory g) ++ [role ss; environment ss; service ss])
    as [|s0 l0] eqn:E0.
  { destruct (segments (BaseDirectory g)); discriminate. }
  rewrite <- E0. rewrite chainFrom_app. cbn [chainFrom app].
  change (str "/") with [slash].
  repeat (rewrite <- ?app_assoc; cbn [app]). reflexivity.
Qed.

Lemma directoryPath_chain_witness :
  splitPaths (directoryPath defaultGlobals wwwProdFrontend)
  = Some [str "/aurora"; str "/aurora/www"; str "/aurora/www/prod";
          str "/aurora/www/prod/frontend"].
Proof.
  refine (directoryPath_chain defaultGlobals wwwProdFrontend eq_refl
                              (or_intror eq_refl) _).
  change (Forall plainSegment
            [str "aurora"; str "www"; str "prod"; str "frontend"]).
  repeat constructor; try discriminate; no_slash.
Defined.

(** Under the base ["/"]: the hierarchy starts at the role. *)
Example directoryPath_chain_root_base :
  splitPaths (directoryPath rootBaseGlobals wwwProdFrontend)
  = Some [str "/www"; str "/www/prod"; str "/www/prod/frontend"].
Proof. reflexivity. Qed.

Lemma splitPaths_None_iff (p : gostring) :
  splitPaths p = None <-> rooted p = false.
Proof.
  split.
  - intros E. destruct (rooted p) eqn:R; [|reflexivity].
    rewrite splitPaths_absolute in E by exact R. discriminate.
  - intros R. apply splitPathsFuel_relative; exact R.
Qed.

Section MoreClientProperties.

Context {Conn : Type} `{zk.Client Conn}.

(** X8. With the default [BaseZnodePath], [createFullPath] and
    [checkExistsFullPath] return exactly when the base directory is empty
    or begins with ['/']; under any other base directory they never
    return. *)
Theorem fullPath_returns_iff (g : Globals) (ss : ServerSet) (c : Conn) :
  BaseZnodePath g = None ->
  ((exists r, createFullPath g ss c = Some r)
   <-> BaseDirectory g = [] \/ rooted (BaseDirectory g) = true) /\
  ((exists r, checkExistsFullPath g ss c = Some r)
   <-> BaseDirectory g = [] \/ rooted (BaseDirectory g) = true).
Proof.
  intros D. unfold createFullPath, checkExistsFullPath, directoryPath.
  rewrite D. unfold defaultBaseZnodePath.
  rewrite <- (rooted_default_path (BaseDirectory g) (role ss)
                (environment ss) (service ss)).
  set (p := BaseDirectory g ++ str "/" ++ role ss ++ str "/"
                          ++ environment ss ++ str "/" ++ service ss).
  destruct (splitPaths p) as [paths|] eqn:E.
  - assert (R : rooted p = true).
    { destruct (rooted p) eqn:R; [reflexivity|].
      apply splitPaths_None_iff in R. congruence. }
    split; (split; [intros _; exact R | intros _; eauto]).
  - apply splitPaths_None_iff in E.
    split; (split; [intros [r F]; discriminate | intros R; congruence]).
Qed.

(** X9. When every ancestor is reported present without error,
    [checkExistsFullPath] returns [nil], after checking each of them. *)
Theorem checkExistsFullPath_all_exist
        (g : Globals) (ss : ServerSet) (c c' : Conn)
        (paths : list gostring) :
  splitPaths (directoryPath g ss) = Some paths ->
  existAll paths c = Some c' ->
  checkExistsFullPath g ss c = Some (None, c').
Proof.
  intros S E. unfold checkExistsFullPath. rewrite S. f_equal.
  rewrite <- (app_nil_r paths).
  rewrite (checkLoop_existAll paths [] c c' E). reflexivity.
Qed.

(** X10. At the first existence check that returns an error,
    [checkExistsFullPath] returns that error, whether or not the node was
    reported present, and checks no path after it. *)
Theorem checkExistsFullPath_error
        (g : Globals) (ss : ServerSet) (c : Conn)
        (pre : list gostring) (key : gostring) (post : list gostring)
        (c1 c2 : Conn) (reported : bool) (e : zk.Error) :
  splitPaths (directoryPath g ss) = Some (pre ++ key :: post) ->
  existAll pre c = Some c1 ->
  zk.Exists key c1 = ((reported, Some e), c2) ->
  checkExistsFullPath g ss c = Some (Some e, c2).
Proof.
  intros S E A. unfold checkExistsFullPath. rewrite S. f_equal.
  rewrite (checkLoop_existAll pre (key :: post) c c1 E).
  cbn [checkLoop]. rewrite A. cbn [isErr]. rewrite orb_true_r. reflexivity.
Qed.

Lemma checkLoop_unchanged (paths : list gostring) :
  (forall k c, snd (zk.Exists k c) = c) ->
  forall c, snd (checkLoop paths c) = c.
Proof.
  intros Q. induction paths as [|key paths IH]; intros c; [reflexivity|].
  cbn [checkLoop]. specialize (Q key c).
  destruct (zk.Exists key c) as [[ex err] c']. cbn [snd] in Q. subst c'.
  destruct (negb ex || isErr err); [reflexivity | apply IH].
Qed.

(** X11. [checkExistsFullPath] only asks: on a client whose existence checks
    leave the connection as it was, it leaves the connection as it was,
    whatever a creation would do. *)
Theorem checkExistsFullPath_read_only
        (g : Globals) (ss : ServerSet) (c c' : Conn)
        (err : option zk.Error) :
  (forall k c0, snd (zk.Exists k c0) = c0) ->
  checkExistsFullPath g ss c = Some (err, c') ->
  c' = c.
Proof.
  intros Q. unfold checkExistsFullPath.
  destruct (splitPaths (directoryPath g ss)) as [paths|]; [|discriminate].
  intros E. inversion E as [E']. rewrite <- (checkLoop_unchanged paths Q c).
  rewrite E'. reflexivity.
Qed.

Lemma createLoop_never_exists (paths : list gostring) :
  forall (c c' : Conn) (e : zk.Error),
    createLoop paths c = (Some e, c') -> e <> zk.ErrNodeExists.
Proof.
  induction paths as [|key paths IH]; intros c c' e E; [discriminate|].
  cbn [createLoop] in E.
  destruct (zk.Create key [] 0%Z (zk.WorldACL zk.PermAll) c)
    as [[created err] c1].
  destruct err as [e1|]; [|exact (IH _ _ _ E)].
  destruct (zk.Error_eq_dec e1 zk.ErrNodeExists) as [->|N].
  - exact (IH _ _ _ E).
  - inversion E; subst. exact N.
Qed.

(** X12. [createFullPath] never returns [ErrNodeExists]. *)
Theorem createFullPath_never_exists
        (g : Globals) (ss : ServerSet) (c c' : Conn) (e : zk.Error) :
  createFullPath g ss c = Some (Some e, c') ->
  e <> zk.ErrNodeExists.
Proof.
  unfold createFullPath.
  destruct (splitPaths (directoryPath g ss)) as [paths|]; [|discriminate].
  intros E. inversion E as [E']. exact (createLoop_never_exists _ _ _ _ E').
Qed.

End MoreClientProperties.

Lemma fullPath_returns_iff_witness :
  (exists r, createFullPath defaultGlobals wwwProdFrontend zkMissingLeaf
             = Some r) /\
  ~ (exists r, createFullPath relativeBaseGlobals wwwProdFrontend
                              zkMissingLeaf = Some r).
Proof.
  split.
  - apply (proj1 (@fullPath_returns_iff FakeZk fakeClient defaultGlobals
                    wwwProdFrontend zkMissingLeaf eq_refl)).
    right; reflexivity.
  - intros F.
    apply (proj1 (@fullPath_returns_iff FakeZk fakeClient relativeBaseGlobals
                    wwwProdFrontend zkMissingLeaf eq_refl)) in F.
    destruct F as [F|F]; discriminate.
Defined.

Lemma checkExistsFullPath_all_exist_witness :
  checkExistsFullPath defaultGlobals wwwProdFrontend zkAllThere
  = Some (None, zkAllThere).
Proof.
  apply (@checkExistsFullPath_all_exist FakeZk fakeClient defaultGlobals
           wwwProdFrontend zkAllThere zkAllThere
           [str "/aurora"; str "/aurora/www"; str "/aurora/www/prod";
            str "/aurora/www/prod/frontend"]); reflexivity.
Defined.

Lemma checkExistsFullPath_error_witness :
  checkExistsFullPath defaultGlobals wwwProdFrontend tt
  = Some (Some zk.ErrConnectionClosed, tt).
Proof.
  apply (@checkExistsFullPath_error unit closedClient defaultGlobals
           wwwProdFrontend tt [] (str "/aurora")
           [str "/aurora/www"; str "/aurora/www/prod";
            str "/aurora/www/prod/frontend"] tt tt false
           zk.ErrConnectionClosed); reflexivity.
Defined.

Lemma checkExistsFullPath_read_only_witness :
  checkExistsFullPath defaultGlobals wwwProdFrontend zkAllThere
  = Some (None, zkAllThere) /\
  zkAllThere = zkAllThere.
Proof.
  split; [reflexivity|].
  apply (@checkExistsFullPath_read_only FakeZk fakeClient defaultGlobals
           wwwProdFrontend zkAllThere zkAllThere None).
  - intros k c0. reflexivity.
  - reflexivity.
Defined.

Lemma createFullPath_never_exists_witness :
  createFullPath defaultGlobals wwwProdFrontend zkDeniedProd
  = Some (Some zk.ErrNoAuth,
          mkFakeZk [str "/aurora"; str "/aurora/www"]
                   [str "/aurora/www/prod"]) /\
  zk.ErrNoAuth <> zk.ErrNodeExists.
Proof.
  split; [reflexivity|].
  apply (@createFullPath_never_exists FakeZk fakeClient defaultGlobals
           wwwProdFrontend zkDeniedProd
           (mkFakeZk [str "/aurora"; str "/aurora/www"]
                     [str "/aurora/www/prod"]) zk.ErrNoAuth).
  reflexivity.
Defined.

(** ** Creating, then checking or creating again *)

Section Store.

Context {Conn : Type} `{zk.Client Conn}.
Variable present : gostring -> Conn -> Prop.

Lemma createLoop_keeps (k : gostring) (paths : list gostring) :
  createKeeps present ->
  forall (c c' : Conn) (r : option zk.Error),
    present k c -> createLoop paths c = (r, c') -> present k c'.
Proof.
  intros Keep. induction paths as [|key paths IH]; intros c c' r P E.
  - inversion E; subst; exact P.
  - cbn [createLoop] in E.
    destruct (zk.Create key [] 0%Z (zk.WorldACL zk.PermAll) c)
      as [[created err] c1] eqn:C.
    pose proof (Keep _ _ _ _ _ P C) as P1.
    destruct err as [e|]; [|exact (IH _ _ _ P1 E)].
    destruct (zk.Error_eq_dec e zk.ErrNodeExists).
    + exact (IH _ _ _ P1 E).
    + inversion E; subst; exact P1.
Qed.

Lemma createLoop_nil_present (paths : list gostring) :
  createdIsPresent present ->
  existingIsPresent present ->
  createKeeps present ->
  forall c c' : Conn,
    createLoop paths c = (None, c') ->
    Forall (fun k => present k c') paths.
Proof.
  intros Ok Ex Keep.
  induction paths as [|key paths IH]; intros c c' E; [constructor|].
  cbn [createLoop] in E.
  destruct (zk.Create key [] 0%Z (zk.WorldACL zk.PermAll) c)
    as [[created err] c1] eqn:C.
  assert (P1 : present key c1 /\ createLoop paths c1 = (None, c')).
  { destruct err as [e|].
    - destruct (zk.Error_eq_dec e zk.ErrNodeExists) as [->|N];
        [|discriminate].
      split; [exact (Ex _ _ _ _ C) | exact E].
    - split; [exact (Ok _ _ _ _ C) | exact E]. }
  destruct P1 as [P1 E1]. constructor.
  - exact (createLoop_keeps key paths Keep c1 c' None P1 E1).
  - exact (IH _ _ E1).
Qed.

Lemma checkLoop_all_present (paths : list gostring) :
  presentIsReported present ->
  existsKeeps present ->
  forall c : Conn,
    Forall (fun k => present k c) paths ->
    exists c', checkLoop paths c = (None, c').
Proof.
  intros Rep Keep.
  induction paths as [|key paths IH]; intros c P; [eexists; reflexivity|].
  inversion P as [|? ? Pk Pr]; subst.
  destruct (Rep _ _ Pk) as [c1 E].
  cbn [checkLoop]. rewrite E. cbn [negb isErr orb].
  apply IH. apply Forall_forall. intros k Hk.
  rewrite Forall_forall in Pr.
  exact (Keep _ _ _ _ _ (Pr k Hk) E).
Qed.

Lemma createLoop_all_present (paths : list gostring) :
  createAgainExists present ->
  createKeeps present ->
  forall c : Conn,
    Forall (fun k => present k c) paths ->
    exists c', createLoop paths c = (None, c').
Proof.
  intros Again Keep.
  induction paths as [|key paths IH]; intros c P; [eexists; reflexivity|].
  inversion P as [|? ? Pk Pr]; subst.
  destruct (Again key c Pk) as (created & c1 & E).
  cbn [createLoop]. rewrite E.
  destruct (zk.Error_eq_dec zk.ErrNodeExists zk.ErrNodeExists);
    [|contradiction].
  apply IH. apply Forall_forall. intros k Hk.
  rewrite Forall_forall in Pr.
  exact (Keep _ _ _ _ _ (Pr k Hk) E).
Qed.

(** X13. Take a store on which, for the creations [createFullPath] makes,
    a node whose creation returned no error or [ErrNodeExists] is there
    afterwards, and a node that is there stays there through a creation.
    Once [createFullPath] has returned [nil] on it, every path of the
    hierarchy is there. *)
Theorem createFullPath_creates_all
        (g : Globals) (ss : ServerSet) (c c1 : Conn)
        (paths : list gostring) (k : gostring) :
  createdIsPresent present ->
  existingIsPresent present ->
  createKeeps present ->
  splitPaths (directoryPath g ss) = Some paths ->
  createFullPath g ss c = Some (None, c1) ->
  In k paths ->
  present k c1.
Proof.
  unfold createFullPath. intros Ok Ex Keep S E Hin. rewrite S in E.
  inversion E as [E'].
  pose proof (createLoop_nil_present paths Ok Ex Keep c c1 E') as F.
  rewrite Forall_forall in F. exact (F k Hin).
Qed.

(** X14. Take a store on which, for the creations [createFullPath] makes,
    a node whose creation returned no error or [ErrNodeExists] is there
    afterwards and a node that is there stays there through a creation;
    and on which a node that is there is reported by [Exists] with no
    error and stays there through an existence check.  A [createFullPath]
    that returned [nil] is followed by a [checkExistsFullPath] that
    returns [nil]. *)
Theorem create_then_check (g : Globals) (ss : ServerSet) (c c1 : Conn) :
  createdIsPresent present ->
  existingIsPresent present ->
  createKeeps present ->
  presentIsReported present ->
  existsKeeps present ->
  createFullPath g ss c = Some (None, c1) ->
  exists c2, checkExistsFullPath g ss c1 = Some (None, c2).
Proof.
  intros Ok Ex Keep Rep EKeep.
  unfold createFullPath, checkExistsFullPath.
  destruct (splitPaths (directoryPath g ss)) as [paths|]; [|discriminate].
  intros E. inversion E as [E'].
  destruct (checkLoop_all_present paths Rep EKeep c1
              (createLoop_nil_present paths Ok Ex Keep c c1 E'))
    as [c2 E2].
  exists c2. rewrite E2. reflexivity.
Qed.

(** X15. Take a store on which, for the creations [createFullPath] makes,
    a node whose creation returned no error or [ErrNodeExists] is there
    afterwards, a node that is there stays there through a creation, and
    the creation of a node that is there returns [ErrNodeExists].  A
    [createFullPath] that returned [nil] can be run again and returns
    [nil] again. *)
Theorem create_twice (g : Globals) (ss : ServerSet) (c c1 : Conn) :
  createdIsPresent present ->
  existingIsPresent present ->
  createKeeps present ->
  createAgainExists present ->
  createFullPath g ss c = Some (None, c1) ->
  exists c2, createFullPath g ss c1 = Some (None, c2).
Proof.
  intros Ok Ex Keep Again.
  unfold createFullPath.
  destruct (splitPaths (directoryPath g ss)) as [paths|]; [|discriminate].
  intros E. inversion E as [E'].
  destruct (createLoop_all_present paths Again Keep c1
              (createLoop_nil_present paths Ok Ex Keep c c1 E'))
    as [c2 E2].
  exists c2. rewrite E2. reflexivity.
Qed.

End Store.

(** The stand-in meets every condition. *)

Lemma hasPath_app (k : gostring) (l1 l2 : list gostring) :
  hasPath k (l1 ++ l2) = hasPath k l1 || hasPath k l2.
Proof. apply existsb_app. Qed.

Lemma fake_createdIsPresent : createdIsPresent fakePresent.
Proof.
  intros key c created c' E. unfold fakePresent.
  cbn [zk.Create fakeClient] in E. unfold fakeCreate in E.
  destruct (hasPath key (denied c)) eqn:D; [discriminate|].
  destruct (hasPath key (nodes c)) eqn:N; [discriminate|].
  inversion E; subst. cbn [nodes denied]. rewrite hasPath_app.
  unfold hasPath at 2. cbn [existsb]. rewrite streq_refl, D.
  rewrite orb_true_r. auto.
Qed.

Lemma fake_existingIsPresent : existingIsPresent fakePresent.
Proof.
  intros key c created c' E. unfold fakePresent.
  cbn [zk.Create fakeClient] in E. unfold fakeCreate in E.
  destruct (hasPath key (denied c)) eqn:D; [discriminate|].
  destruct (hasPath key (nodes c)) eqn:N; [|discriminate].
  inversion E; subst. auto.
Qed.

Lemma fake_createKeeps : createKeeps fakePresent.
Proof.
  intros k key c r c' [Pn Pd] E. unfold fakePresent.
  cbn [zk.Create fakeClient] in E. unfold fakeCreate in E.
  destruct (hasPath key (denied c)); [inversion E; subst; auto|].
  destruct (hasPath key (nodes c)); inversion E; subst; [auto|].
  cbn [nodes denied]. rewrite hasPath_app, Pn. auto.
Qed.

Lemma fake_createAgainExists : createAgainExists fakePresent.
Proof.
  intros key c [Pn Pd]. cbn [zk.Create fakeClient]. unfold fakeCreate.
  rewrite Pd, Pn. eauto.
Qed.

Lemma fake_presentIsReported : presentIsReported fakePresent.
Proof.
  intros k c [Pn Pd]. cbn [zk.Exists fakeClient]. unfold fakeExists.
  rewrite Pn. eauto.
Qed.

Lemma fake_existsKeeps : existsKeeps fakePresent.
Proof.
  intros k key c r c' P E. cbn [zk.Exists fakeClient] in E.
  unfold fakeExists in E. inversion E; subst. exact P.
Qed.

Lemma createFullPath_creates_all_witness :
  createFullPath defaultGlobals wwwProdFrontend (mkFakeZk [] [])
  = Some (None, zkAllThere) /\
  fakePresent (str "/aurora/www/prod/frontend") zkAllThere.
Proof.
  split; [reflexivity|].
  apply (@createFullPath_creates_all FakeZk fakeClient fakePresent
           defaultGlobals wwwProdFrontend (mkFakeZk [] []) zkAllThere
           [str "/aurora"; str "/aurora/www"; str "/aurora/www/prod";
            str "/aurora/www/prod/frontend"]
           (str "/aurora/www/prod/frontend")
           fake_createdIsPresent fake_existingIsPresent fake_createKeeps).
  - reflexivity.
  - reflexivity.
  - right; right; right; left; reflexivity.
Defined.

Lemma create_then_check_witness :
  createFullPath defaultGlobals wwwProdFrontend (mkFakeZk [] [])
  = Some (None, zkAllThere) /\
  exists c2,
    checkExistsFullPath defaultGlobals wwwProdFrontend zkAllThere
    = Some (None, c2).
Proof.
  split; [reflexivity|].
  apply (@create_then_check FakeZk fakeClient fakePresent
           defaultGlobals wwwProdFrontend (mkFakeZk [] []) zkAllThere
           fake_createdIsPresent fake_existingIsPresent fake_createKeeps
           fake_presentIsReported fake_existsKeeps).
  reflexivity.
Defined.

Lemma create_twice_witness :
  createFullPath defaultGlobals wwwProdFrontend (mkFakeZk [] [])
  = Some (None, zkAllThere) /\
  exists c2,
    createFullPath defaultGlobals wwwProdFrontend zkAllThere
    = Some (None, c2).
Proof.
  split; [reflexivity|].
  apply (@create_twice FakeZk fakeClient fakePresent
           defaultGlobals wwwProdFrontend (mkFakeZk [] []) zkAllThere
           fake_createdIsPresent fake_existingIsPresent fake_createKeeps
           fake_createAgainExists).
  reflexivity.
Defined.

(** ** Witnesses for two properties stated above *)

Lemma splitPaths_ancestor_chain_witness :
  exists chain,
    splitPaths (str "/a//b/../c/") = Some chain /\
    length chain = depth (str "/a//b/../c/") /\
    last chain [] = path.Clean (str "/a//b/../c/").
Proof.
  destruct (splitPaths_ancestor_chain (str "/a//b/../c/"))
    as (chain & S & L & _ & _ & E).
  - reflexivity.
  - discriminate.
  - exists chain. split; [exact S|]. split; [exact L | exact E].
Defined.

Lemma Marshal_newEntity_witness :
  json.Marshal (newEntity (str "web-1.example.org") 443)
  = Some (json.text "{'serviceEndpoint':{'host':'" ++ str "web-1.example.org"
            ++ json.text "','port':" ++ json.encodeInt 443
            ++ json.text "},'additionalEndpoints':{},'shard':0,'status':'ALIVE'}").
Proof.
  apply (Marshal_newEntity (str "web-1.example.org") 443). reflexivity.
Defined.

(** ** What a [nil] from [createFullPath] means, and what a failure leaves *)

Section CreateResults.

Context {Conn : Type} `{zk.Client Conn}.

Lemma createLoop_nil_createAll (paths : list gostring) :
  forall c c' : Conn,
    createLoop paths c = (None, c') -> createAll paths c = Some c'.
Proof.
  induction paths as [|key paths IH]; intros c c' E.
  - inversion E; reflexivity.
  - cbn [createLoop] in E. cbn [createAll].
    destruct (zk.Create key [] 0%Z (zk.WorldACL zk.PermAll) c)
      as [[created err] c1].
    destruct err as [e|]; [|exact (IH _ _ E)].
    destruct (zk.Error_eq_dec e zk.ErrNodeExists) as [->|N].
    + exact (IH _ _ E).
    + discriminate.
Qed.

(** X18. [createFullPath] returns [nil] only if every creation over the
    chain returned no error or [ErrNodeExists]: no other error is
    dropped. *)
Theorem createFullPath_nil_only_if
        (g : Globals) (ss : ServerSet) (c c' : Conn)
        (paths : list gostring) :
  splitPaths (directoryPath g ss) = Some paths ->
  createFullPath g ss c = Some (None, c') ->
  createAll paths c = Some c'.
Proof.
  unfold createFullPath. intros S E. rewrite S in E.
  inversion E as [E']. exact (createLoop_nil_createAll paths c c' E').
Qed.

Variable present : gostring -> Conn -> Prop.

(** X17. Take a store on which, for the creations [createFullPath] makes,
    a node whose creation returned no error or [ErrNodeExists] is there
    afterwards, and a node that is there stays there through a creation.
    When [createFullPath] stops at a creation that fails with another
    error, it returns that error and the ancestors handled before it are
    still there: nothing is rolled back. *)
Theorem createFullPath_failure_keeps
        (g : Globals) (ss : ServerSet) (c : Conn)
        (pre : list gostring) (key : gostring) (post : list gostring)
        (c1 c2 : Conn) (created : gostring) (e : zk.Error) (k : gostring) :
  createdIsPresent present ->
  existingIsPresent present ->
  createKeeps present ->
  splitPaths (directoryPath g ss) = Some (pre ++ key :: post) ->
  createAll pre c = Some c1 ->
  zk.Create key [] 0%Z (zk.WorldACL zk.PermAll) c1
  = ((created, Some e), c2) ->
  e <> zk.ErrNodeExists ->
  In k pre ->
  createFullPath g ss c = Some (Some e, c2) /\ present k c2.
Proof.
  intros Ok Ex Keep S A C N Hin. split.
  - unfold createFullPath. rewrite S. f_equal.
    rewrite (createLoop_createAll pre (key :: post) c c1 A).
    cbn [createLoop]. rewrite C.
    destruct (zk.Error_eq_dec e zk.ErrNodeExists); [contradiction|].
    reflexivity.
  - assert (L : createLoop pre c = (None, c1)).
    { rewrite <- (app_nil_r pre).
      rewrite (createLoop_createAll pre [] c c1 A). reflexivity. }
    pose proof (createLoop_nil_present present pre Ok Ex Keep c c1 L) as F.
    rewrite Forall_forall in F.
    exact (Keep _ _ _ _ _ (F k Hin) C).
Qed.

End CreateResults.

Lemma createFullPath_nil_only_if_witness :
  createAll [str "/aurora"; str "/aurora/www"; str "/aurora/www/prod";
             str "/aurora/www/prod/frontend"] zkMissingLeaf
  = Some zkAllThere.
Proof.
  apply (@createFullPath_nil_only_if FakeZk fakeClient defaultGlobals
           wwwProdFrontend zkMissingLeaf zkAllThere); reflexivity.
Defined.

Lemma createFullPath_failure_keeps_witness :
  createFullPath defaultGlobals wwwProdFrontend zkDeniedProd
  = Some (Some zk.ErrNoAuth,
          mkFakeZk [str "/aurora"; str "/aurora/www"]
                   [str "/aurora/www/prod"]) /\
  fakePresent (str "/aurora/www")
              (mkFakeZk [str "/aurora"; str "/aurora/www"]
                        [str "/aurora/www/prod"]).
Proof.
  apply (@createFullPath_failure_keeps FakeZk fakeClient fakePresent
           defaultGlobals wwwProdFrontend zkDeniedProd
           [str "/aurora"; str "/aurora/www"] (str "/aurora/www/prod")
           [str "/aurora/www/prod/frontend"]
           (mkFakeZk [str "/aurora"; str "/aurora/www"]
                     [str "/aurora/www/prod"])
           (mkFakeZk [str "/aurora"; str "/aurora/www"]
                     [str "/aurora/www/prod"])
           [] zk.ErrNoAuth (str "/aurora/www")
           fake_createdIsPresent fake_existingIsPresent fake_createKeeps).
  - reflexivity.
  - reflexivity.
  - reflexivity.
  - discriminate.
  - right; left; reflexivity.
Defined.
